(** * PlaybackControls: the playback state machine and its suspension protocol

    A shallow embedding of the class [PlaybackControls]
    ([playback-controls.ts], the version with the [step] hook and the tick
    labels) and of the types of [state-machine.ts].

    - JavaScript numbers are IEEE-754 binary64 values: Rocq's primitive
      [float], with [=?], [<?], [<=?] for [===], [<], [<=].
    - The private fields of the instance and the part of the browser the
      class talks to (the [TimeBasedState] objects, the pending
      [requestAnimationFrame] callbacks, the promises made by
      [#abortablePromise], the dispatched events) form one record,
      [PlaybackControls].  The hook calls made on the listener are recorded
      there as well.
    - A method is a function from that record to a completion (normal or
      thrown) and the record after the call: an exception leaves the
      mutations made before it in place, as in JavaScript.
    - A listener hook is a function of the hook calls made so far on the
      instance and of its arguments; it answers with a value of its declared
      type, with [null]/[undefined], with a promise, or by throwing.  Hooks
      and event listeners do not call back into the instance.
    - A promise made by [#abortablePromise] is the race of the listener's
      promise and of the abort signal, and it goes the way of whichever comes
      first.  When the listener's promise settles first, the [then] handler
      (and, if it throws, the [catch] handler) is due, and it runs in a later
      job: what the program does in between, [ctrl.abort()] included, does
      not call it off.  When [ctrl.abort()] comes first, the handlers see a
      [_PlaybackAbortError] and do nothing.  The settlement of the
      listener's promise and the run of the handler are two steps, with any
      other step allowed in between.
    - DOM construction, styling and tick rendering are left out;
      [#enterPressed] and [#progressChanged] only forward to [start],
      [pause], [stop] and [move]. *)

From Stdlib Require Import List Bool String Floats ZArith Lia.
Import ListNotations.

Set Warnings "-inexact-float".
Local Open Scope float_scope.
Local Open Scope bool_scope.

(** ** Data model *)

(** [enum PlaybackState] *)
Inductive PlaybackState : Type :=
| STOPPED
| PLAYING
| FINISHED
| PAUSED
| PLAYING_BACKWARDS.

Definition PlaybackState_eqb (a b : PlaybackState) : bool :=
  match a, b with
  | STOPPED, STOPPED | PLAYING, PLAYING | FINISHED, FINISHED
  | PAUSED, PAUSED | PLAYING_BACKWARDS, PLAYING_BACKWARDS => true
  | _, _ => false
  end.

(** [type TimeBasedState]; an absent optional field is [None]. *)
Record TimeBasedState : Type := {
  millisElapsed : option float;
  timer : option nat;
  durationMillis : float
}.

(** [MutablePlaybackStateInfo]: the [#state] object, and also every shallow
    copy [{...state}] of it.  [time] is a reference to a [TimeBasedState]
    object, so a copy shares that object with the original. *)
Record PlaybackStateInfo : Type := {
  state : PlaybackState;
  fraction : float;
  isSuspended : bool;
  time : option nat
}.

(** [isPlaying()] of the state object *)
Definition isPlaying (s : PlaybackStateInfo) : bool :=
  match state s with
  | PLAYING | PLAYING_BACKWARDS => true
  | _ => false
  end.

Record PlaybackTransition : Type := {
  from : PlaybackStateInfo;
  to : PlaybackStateInfo
}.

(** [CustomEvent<PlaybackTransition>] *)
Record CustomEvent : Type := {
  type : string;
  detail : PlaybackTransition
}.

(** [type StepResult = false|number] *)
Inductive StepResult : Type :=
| StepFalse
| StepNumber (fraction : float).

(** What a hook call comes back with: a value of the declared type, [null]
    or [undefined], a promise, or an exception. *)
Inductive Answer (A : Type) : Type :=
| Returns (a : A)
| Nullish
| Deferred
| Throws.
Arguments Returns {A} a.
Arguments Nullish {A}.
Arguments Deferred {A}.
Arguments Throws {A}.

(** One invocation of a listener hook, with its arguments. *)
Inductive HookCall : Type :=
| CallStart (fraction : float) (backwards : bool)
| CallMove (s : PlaybackStateInfo)
| CallStopped (s : PlaybackStateInfo)
| CallStep (fraction : float) (backwards : bool).

(** [interface AnimationListener]; [start], [stopped] and [step] are
    optional.  The first argument of each hook is the list of hook calls
    made before this one.  [stopped] answers [true] when it throws (its
    return value is ignored by the caller). *)
Record AnimationListener : Type := {
  l_start : option (list HookCall -> float -> bool -> Answer bool);
  l_move : list HookCall -> PlaybackStateInfo -> Answer bool;
  l_stopped : option (list HookCall -> PlaybackStateInfo -> bool);
  l_step : option (list HookCall -> float -> bool -> Answer StepResult)
}.

(** The four control elements carrying the class [ctrl-btn]. *)
Inductive Button : Type :=
| Play
| PlayBackward
| Pause
| Stop.

Definition Button_eqb (a b : Button) : bool :=
  match a, b with
  | Play, Play | PlayBackward, PlayBackward | Pause, Pause | Stop, Stop => true
  | _, _ => false
  end.

(** The variables captured by one [run] closure of [#startTimer]: the
    [timeInfo] object, [initialFraction], [options?.oneOff] and the mutable
    local [start].  A closure is held by exactly one pending callback or one
    pending promise at a time, so it is passed along by value. *)
Record RunClosure : Type := {
  timeInfo : nat;
  initialFraction : float;
  oneOff : bool;
  start_ : option float
}.

(** What runs when a promise made by [#abortablePromise] settles. *)
Inductive Continuation : Type :=
| StartK (previousState : PlaybackStateInfo) (backwards : bool)
| MoveK (previousState : PlaybackStateInfo) (fraction : float)
| StepK
| RunK (c : RunClosure) (fraction : float) (suspensionStart : float).

(** Where a promise made by [#abortablePromise] stands: nothing has happened
    to it; the listener's promise has settled first and the handler is due;
    [ctrl.abort()] came first; the handler has run. *)
Inductive PromiseStatus : Type :=
| Pending
| Resolved
| Aborted
| Settled.

(** One promise made by [#abortablePromise] with its [AbortController]. *)
Record Suspension : Type := {
  ctrl : nat;
  kont : Continuation;
  status : PromiseStatus
}.

Inductive Error : Type :=
| InvalidFraction (fraction : float)
| HookError
| TypeError.

(** The instance: private fields first, then the host environment. *)
Record PlaybackControls : Type := {
  p_state : PlaybackStateInfo;
  p_suspensionControl : option nat;
  p_animationCallback : option AnimationListener;
  p_disabled : Button -> bool;
  p_progress : float;
  p_attr_duration : float;
  heap : list TimeBasedState;
  frames : list (nat * RunClosure);
  frameCount : nat;
  promises : list Suspension;
  dispatched : list CustomEvent;
  calls : list HookCall
}.

(** ** Field updates *)

Definition set_state (v : PlaybackState) (s : PlaybackStateInfo) :=
  {| state := v; fraction := fraction s; isSuspended := isSuspended s; time := time s |}.
Definition set_fraction (v : float) (s : PlaybackStateInfo) :=
  {| state := state s; fraction := v; isSuspended := isSuspended s; time := time s |}.
Definition set_isSuspended (v : bool) (s : PlaybackStateInfo) :=
  {| state := state s; fraction := fraction s; isSuspended := v; time := time s |}.
Definition set_time (v : option nat) (s : PlaybackStateInfo) :=
  {| state := state s; fraction := fraction s; isSuspended := isSuspended s; time := v |}.

Definition with_state (f : PlaybackStateInfo -> PlaybackStateInfo) (p : PlaybackControls) :=
  {| p_state := f (p_state p);
     p_suspensionControl := p_suspensionControl p;
     p_animationCallback := p_animationCallback p;
     p_disabled := p_disabled p; p_progress := p_progress p;
     p_attr_duration := p_attr_duration p;
     heap := heap p; frames := frames p; frameCount := frameCount p;
     promises := promises p; dispatched := dispatched p; calls := calls p |}.
Definition with_suspensionControl (v : option nat) (p : PlaybackControls) :=
  {| p_state := p_state p;
     p_suspensionControl := v;
     p_animationCallback := p_animationCallback p;
     p_disabled := p_disabled p; p_progress := p_progress p;
     p_attr_duration := p_attr_duration p;
     heap := heap p; frames := frames p; frameCount := frameCount p;
     promises := promises p; dispatched := dispatched p; calls := calls p |}.
Definition with_animationCallback (v : option AnimationListener) (p : PlaybackControls) :=
  {| p_state := p_state p;
     p_suspensionControl := p_suspensionControl p;
     p_animationCallback := v;
     p_disabled := p_disabled p; p_progress := p_progress p;
     p_attr_duration := p_attr_duration p;
     heap := heap p; frames := frames p; frameCount := frameCount p;
     promises := promises p; dispatched := dispatched p; calls := calls p |}.
Definition with_disabled (v : Button -> bool) (p : PlaybackControls) :=
  {| p_state := p_state p;
     p_suspensionControl := p_suspensionControl p;
     p_animationCallback := p_animationCallback p;
     p_disabled := v; p_progress := p_progress p;
     p_attr_duration := p_attr_duration p;
     heap := heap p; frames := frames p; frameCount := frameCount p;
     promises := promises p; dispatched := dispatched p; calls := calls p |}.
Definition with_progress (v : float) (p : PlaybackControls) :=
  {| p_state := p_state p;
     p_suspensionControl := p_suspensionControl p;
     p_animationCallback := p_animationCallback p;
     p_disabled := p_disabled p; p_progress := v;
     p_attr_duration := p_attr_duration p;
     heap := heap p; frames := frames p; frameCount := frameCount p;
     promises := promises p; dispatched := dispatched p; calls := calls p |}.
Definition with_attr_duration (v : float) (p : PlaybackControls) :=
  {| p_state := p_state p;
     p_suspensionControl := p_suspensionControl p;
     p_animationCallback := p_animationCallback p;
     p_disabled := p_disabled p; p_progress := p_progress p;
     p_attr_duration := v;
     heap := heap p; frames := frames p; frameCount := frameCount p;
     promises := promises p; dispatched := dispatched p; calls := calls p |}.
Definition with_heap (v : list TimeBasedState) (p : PlaybackControls) :=
  {| p_state := p_state p;
     p_suspensionControl := p_suspensionControl p;
     p_animationCallback := p_animationCallback p;
     p_disabled := p_disabled p; p_progress := p_progress p;
     p_attr_duration := p_attr_duration p;
     heap := v; frames := frames p; frameCount := frameCount p;
     promises := promises p; dispatched := dispatched p; calls := calls p |}.
Definition with_frames (v : list (nat * RunClosure)) (n : nat) (p : PlaybackControls) :=
  {| p_state := p_state p;
     p_suspensionControl := p_suspensionControl p;
     p_animationCallback := p_animationCallback p;
     p_disabled := p_disabled p; p_progress := p_progress p;
     p_attr_duration := p_attr_duration p;
     heap := heap p; frames := v; frameCount := n;
     promises := promises p; dispatched := dispatched p; calls := calls p |}.
Definition with_promises (v : list Suspension) (p : PlaybackControls) :=
  {| p_state := p_state p;
     p_suspensionControl := p_suspensionControl p;
     p_animationCallback := p_animationCallback p;
     p_disabled := p_disabled p; p_progress := p_progress p;
     p_attr_duration := p_attr_duration p;
     heap := heap p; frames := frames p; frameCount := frameCount p;
     promises := v; dispatched := dispatched p; calls := calls p |}.
Definition with_dispatched (v : list CustomEvent) (p : PlaybackControls) :=
  {| p_state := p_state p;
     p_suspensionControl := p_suspensionControl p;
     p_animationCallback := p_animationCallback p;
     p_disabled := p_disabled p; p_progress := p_progress p;
     p_attr_duration := p_attr_duration p;
     heap := heap p; frames := frames p; frameCount := frameCount p;
     promises := promises p; dispatched := v; calls := calls p |}.
Definition with_calls (v : list HookCall) (p : PlaybackControls) :=
  {| p_state := p_state p;
     p_suspensionControl := p_suspensionControl p;
     p_animationCallback := p_animationCallback p;
     p_disabled := p_disabled p; p_progress := p_progress p;
     p_attr_duration := p_attr_duration p;
     heap := heap p; frames := frames p; frameCount := frameCount p;
     promises := promises p; dispatched := dispatched p; calls := v |}.

(** ** Methods: state passing with exceptions *)

Inductive Result (A : Type) : Type :=
| Ok (a : A)
| Thrown (e : Error).
Arguments Ok {A} a.
Arguments Thrown {A} e.

Definition Method (A : Type) : Type :=
  PlaybackControls -> Result A * PlaybackControls.

Definition ret {A} (a : A) : Method A := fun p => (Ok a, p).

Definition bind {A B} (c : Method A) (k : A -> Method B) : Method B :=
  fun p =>
    match c p with
    | (Ok a, p') => k a p'
    | (Thrown e, p') => (Thrown e, p')
    end.

Definition throw {A} (e : Error) : Method A := fun p => (Thrown e, p).

(** [try { c } catch (e) {}] *)
Definition try_ (c : Method unit) : Method unit :=
  fun p => (Ok tt, snd (c p)).

(** A block that cannot throw. *)
Definition lift (f : PlaybackControls -> PlaybackControls) : Method unit :=
  fun p => (Ok tt, f p).

Definition this : Method PlaybackControls := fun p => (Ok p, p).

Declare Scope method_scope.
Delimit Scope method_scope with method.
Notation "x <- c ;; k" := (bind c (fun x => k))
  (at level 61, c at next level, right associativity) : method_scope.
Notation "c ;; k" := (bind c (fun _ => k))
  (at level 61, right associativity) : method_scope.
Local Open Scope method_scope.

(** The instance after the call, whether it returned or threw. *)
Definition exec {A} (c : Method A) (p : PlaybackControls) : PlaybackControls :=
  snd (c p).

(** ** The host environment *)

(** The store of [TimeBasedState] objects; a reference is an index.  Objects
    are never removed, so a reference taken from the instance always
    resolves; [noTime] only makes the lookup total. *)
Definition noTime : TimeBasedState :=
  {| millisElapsed := None; timer := None; durationMillis := nan |}.

Definition deref (r : nat) (p : PlaybackControls) : TimeBasedState :=
  nth r (heap p) noTime.

Fixpoint update_nth {A} (n : nat) (f : A -> A) (l : list A) : list A :=
  match l, n with
  | [], _ => []
  | x :: l', O => f x :: l'
  | x :: l', S n' => x :: update_nth n' f l'
  end.

Definition assign (r : nat) (f : TimeBasedState -> TimeBasedState)
    (p : PlaybackControls) : PlaybackControls :=
  with_heap (update_nth r f (heap p)) p.

Definition set_millisElapsed (v : option float) (t : TimeBasedState) :=
  {| millisElapsed := v; timer := timer t; durationMillis := durationMillis t |}.
Definition set_timer (v : option nat) (t : TimeBasedState) :=
  {| millisElapsed := millisElapsed t; timer := v; durationMillis := durationMillis t |}.
Definition set_durationMillis (v : float) (t : TimeBasedState) :=
  {| millisElapsed := millisElapsed t; timer := timer t; durationMillis := v |}.

(** [new TimeBasedState]: allocate, return the reference. *)
Definition alloc (t : TimeBasedState) (p : PlaybackControls) : nat * PlaybackControls :=
  (List.length (heap p), with_heap (heap p ++ [t]) p).

(** [globalThis.requestAnimationFrame(run)]: the handle is fresh. *)
Definition requestAnimationFrame (run : RunClosure) (p : PlaybackControls)
    : nat * PlaybackControls :=
  (frameCount p, with_frames (frames p ++ [(frameCount p, run)]) (S (frameCount p)) p).

(** [globalThis.cancelAnimationFrame(handle)]: no effect on a handle that
    is not pending. *)
Definition cancelAnimationFrame (handle : nat) (p : PlaybackControls) : PlaybackControls :=
  with_frames (filter (fun x => negb (Nat.eqb (fst x) handle)) (frames p)) (frameCount p) p.

(** [ctrl.abort()]: the raced promise rejects with [_PlaybackAbortError]
    unless the listener's promise has settled before; the [catch] handlers
    do nothing on that error, so an aborted promise has no continuation
    left.  A promise whose handler is due is out of reach of the signal. *)
Definition abort (c : nat) (p : PlaybackControls) : PlaybackControls :=
  with_promises
    (map (fun s =>
            if Nat.eqb (ctrl s) c then
              match status s with
              | Pending => {| ctrl := ctrl s; kont := kont s; status := Aborted |}
              | _ => s
              end
            else s)
         (promises p)) p.

(** [Math.max] and [Math.min] of two numbers. *)
Definition Math_max (a b : float) : float :=
  if is_nan a || is_nan b then nan
  else if a <? b then b
  else if b <? a then a
  else if get_sign a then b else a.

Definition Math_min (a b : float) : float :=
  if is_nan a || is_nan b then nan
  else if a <? b then a
  else if b <? a then b
  else if get_sign a then a else b.

(** The hook call is recorded; the hook itself sees the calls before it. *)
Definition log (c : HookCall) (p : PlaybackControls) : PlaybackControls :=
  with_calls (calls p ++ [c]) p.

(** ** Private helpers of the class *)

Definition activate (el : Button) (p : PlaybackControls) : PlaybackControls :=
  with_disabled (fun b => if Button_eqb b el then false else p_disabled p b) p.

Definition deactivate (el : Button) (p : PlaybackControls) : PlaybackControls :=
  with_disabled (fun b => if Button_eqb b el then true else p_disabled p b) p.

Definition updateActivation (nowActive nowInactive : list Button)
    (p : PlaybackControls) : PlaybackControls :=
  fold_left (fun p e => deactivate e p) nowInactive
    (fold_left (fun p e => activate e p) nowActive p).

(** [#dispatchEvent(type, oldState)]: the typed event, then ["change"]. *)
Definition dispatchEvent (type_ : string) (oldState : PlaybackStateInfo)
    (p : PlaybackControls) : PlaybackControls :=
  let transition := {| from := oldState; to := p_state p |} in
  with_dispatched
    (dispatched p ++ [ {| type := type_; detail := transition |};
                       {| type := "change"; detail := transition |} ]) p.

(** [#cancelTimer()] *)
Definition cancelTimer (p : PlaybackControls) : PlaybackControls :=
  match time (p_state p) with
  | None => p
  | Some r =>
    match timer (deref r p) with
    | None => p
    | Some handle =>
      assign r (set_millisElapsed None)
        (assign r (set_timer None) (cancelAnimationFrame handle p))
    end
  end.

(** [#cancelSuspension()] *)
Definition cancelSuspension (p : PlaybackControls) : PlaybackControls :=
  if isSuspended (p_state p) then
    let p1 := match p_suspensionControl p with
              | Some c => abort c p
              | None => p
              end in
    with_state (set_isSuspended false) (with_suspensionControl None p1)
  else p.

(** [state.isSuspended = true], [#abortablePromise(result)],
    [this.#suspensionControl = ctrl], [promise.then(...).catch(...)]. *)
Definition suspend (k : Continuation) (p : PlaybackControls) : PlaybackControls :=
  let c := List.length (promises p) in
  with_suspensionControl (Some c)
    (with_promises (promises p ++ [ {| ctrl := c; kont := k; status := Pending |} ])
       (with_state (set_isSuspended true) p)).

(** [#startTimer(options?)]; the [run] callback is [run] below. *)
Definition startTimer (oneOff_ : bool) (p : PlaybackControls) : PlaybackControls :=
  match time (p_state p) with
  | None => p
  | Some r =>
    let p1 := cancelTimer p in
    if negb (isPlaying (p_state p1)) && negb oneOff_ then p1
    else
      let run := {| timeInfo := r; initialFraction := fraction (p_state p1);
                    oneOff := oneOff_; start_ := None |} in
      let p2 := assign r (set_millisElapsed (Some 0)) p1 in
      let (handle, p3) := requestAnimationFrame run p2 in
      assign r (set_timer (Some handle)) p3
  end.

(** [if (this.#animationCallback?.stopped) this.#animationCallback.stopped({...state})] *)
Definition notifyStopped : Method unit :=
  fun p =>
    match p_animationCallback p with
    | Some l =>
      match l_stopped l with
      | Some stopped =>
        let s := p_state p in
        if stopped (calls p) s
        then (Thrown HookError, log (CallStopped s) p)
        else (Ok tt, log (CallStopped s) p)
      | None => (Ok tt, p)
      end
    | None => (Ok tt, p)
    end.

(** The first lines of [#moveInternal]: clamp, or throw. *)
Definition clamp (fraction_ : float) : Method float :=
  if fraction_ <? 0 then ret 0
  else if 1 <? fraction_ then ret 1
  else if negb (is_finite fraction_) then throw (InvalidFraction fraction_)
  else ret fraction_.

Definition resting (s : PlaybackState) : bool :=
  match s with
  | PAUSED | STOPPED | FINISHED => true
  | _ => false
  end.

(** [#moveInternal(fraction, options?)] with [skipTimer = options?.skipTimer] *)
Definition moveInternal (fraction_ : float) (skipTimer : bool) : Method unit :=
  (if skipTimer then ret tt else lift cancelTimer) ;;
  fraction_ <- clamp fraction_ ;;
  lift (with_state (set_fraction fraction_)) ;;
  p <- this ;;
  (if resting (state (p_state p))
      || (fraction_ =? 0) && PlaybackState_eqb (state (p_state p)) PLAYING_BACKWARDS
      || (fraction_ =? 1) && PlaybackState_eqb (state (p_state p)) PLAYING
   then
     (if fraction_ =? 0 then
        lift (with_state (set_state STOPPED)) ;;
        lift (updateActivation [Play; PlayBackward] [Pause; Stop])
      else
        lift (with_state (set_state (if fraction_ =? 1 then FINISHED else PAUSED))) ;;
        lift (updateActivation [Play; PlayBackward; Stop] [Pause])) ;;
     try_ notifyStopped
   else
     let isBackwards := PlaybackState_eqb (state (p_state p)) PLAYING_BACKWARDS in
     let active := if isBackwards then Play else PlayBackward in
     let inactive := if isBackwards then PlayBackward else Play in
     lift (updateActivation [active; Stop; Pause] [inactive])) ;;
  lift (with_progress (fraction_ * 100)) ;;
  p <- this ;;
  match time (p_state p) with
  | Some _ =>
    if skipTimer then ret tt
    else lift (startTimer (negb (isPlaying (p_state p))))
  | None => ret tt
  end.

(** ** Public methods *)

Definition stop : Method unit :=
  lift (with_state (set_state STOPPED)) ;;
  lift cancelSuspension ;;
  moveInternal 0 false ;;
  notifyStopped.

Definition finish : Method unit :=
  lift (with_state (set_state FINISHED)) ;;
  lift cancelSuspension ;;
  moveInternal 1 false ;;
  notifyStopped.

(** [#paused()] *)
Definition paused : PlaybackControls -> PlaybackControls :=
  updateActivation [Play; PlayBackward; Stop] [Pause].

Definition pause : Method unit :=
  lift cancelSuspension ;;
  p <- this ;;
  if fraction (p_state p) <=? 0 then stop
  else if 1 <=? fraction (p_state p) then finish
  else
    lift (with_state (set_state PAUSED)) ;;
    lift paused ;;
    lift cancelTimer ;;
    notifyStopped.

(** [#started(backwards)] *)
Definition started (backwards : bool) : PlaybackControls -> PlaybackControls :=
  updateActivation [if backwards then Play else PlayBackward; Pause; Stop]
                   [if backwards then PlayBackward else Play].

(** The closures [finishStart] and [abort] of [start]. *)
Definition finishStart (backwards : bool) (p : PlaybackControls) : PlaybackControls :=
  let p1 := started backwards (with_state (set_isSuspended false) p) in
  match time (p_state p1) with
  | Some _ => startTimer false p1
  | None => p1
  end.

Definition start_abort (previousState : PlaybackStateInfo)
    (p : PlaybackControls) : PlaybackControls :=
  with_state (set_isSuspended false) (with_state (fun _ => previousState) p).

Definition start (backwards : bool) : Method unit :=
  p <- this ;;
  match p_animationCallback p with
  | None => ret tt
  | Some l =>
    let previousState := p_state p in
    if isPlaying previousState
       && Bool.eqb backwards (PlaybackState_eqb (state previousState) PLAYING_BACKWARDS)
    then ret tt
    else
      lift cancelSuspension ;;
      lift (with_state (set_state (if backwards then PLAYING_BACKWARDS else PLAYING))) ;;
      lift (fun p =>
              if backwards && (fraction (p_state p) =? 0)
              then with_state (set_fraction 1) p
              else if negb backwards && (fraction (p_state p) =? 1)
              then with_state (set_fraction 0) p
              else p) ;;
      match l_start l with
      | Some hook =>
        p1 <- this ;;
        lift (log (CallStart (fraction (p_state p1)) backwards)) ;;
        match hook (calls p1) (fraction (p_state p1)) backwards with
        | Throws => throw HookError
        | Returns false | Nullish => lift (start_abort previousState)
        | Deferred => lift (suspend (StartK previousState backwards))
        | Returns true => lift (finishStart backwards)
        end
      | None => lift (finishStart backwards)
      end
  end.

(** The closures [abort] and [finalize] of [move]. *)
Definition move_abort (previousState : PlaybackStateInfo) : Method unit :=
  lift (with_state (set_isSuspended false)) ;;
  lift (with_state (set_fraction (fraction previousState))) ;;
  pause.

Definition move_finalize (previousState : PlaybackStateInfo) (fraction_ : float)
    : Method unit :=
  lift (with_state (set_isSuspended false)) ;;
  moveInternal fraction_ false ;;
  p <- this ;;
  lift (dispatchEvent (if isPlaying (p_state p) then "jumpplaying" else "jumppaused")
                      previousState).

Definition move (fraction_ : float) : Method unit :=
  lift cancelSuspension ;;
  p <- this ;;
  let previousState := p_state p in
  match p_animationCallback p with
  | None => move_abort previousState
  | Some l =>
    let candidate := set_fraction fraction_ previousState in
    lift (log (CallMove candidate)) ;;
    match l_move l (calls p) candidate with
    | Throws => throw HookError
    | Returns false | Nullish => move_abort previousState
    | Deferred => lift (suspend (MoveK previousState fraction_))
    | Returns true => move_finalize previousState fraction_
    end
  end.

(** ** User input *)

Inductive Key : Type :=
| ArrowLeft
| ArrowRight
| OtherKey.

(** [const isLeft = event.key === "ArrowLeft"] *)
Definition isLeft (key : Key) : bool :=
  match key with ArrowLeft => true | _ => false end.

(** [#step(event)], the [keydown] listener of the progress bar *)
Definition step (key : Key) : Method unit :=
  match key with
  | OtherKey => ret tt
  | _ =>
    p <- this ;;
    match p_animationCallback p with
    | None => ret tt
    | Some l =>
      match l_step l with
      | None => ret tt
      | Some hook =>
        lift cancelSuspension ;;
        p1 <- this ;;
        lift (log (CallStep (fraction (p_state p1)) (isLeft key))) ;;
        match hook (calls p1) (fraction (p_state p1)) (isLeft key) with
        | Throws => throw HookError
        | Returns StepFalse | Nullish => ret tt
        | Deferred => lift (suspend StepK)
        | Returns (StepNumber result) => moveInternal result false
        end
      end
    end
  end.

(** The element a click lands on: one of the four [ctrl-btn] elements, or
    anything else inside the container. *)
Inductive ClickTarget : Type :=
| OnButton (b : Button)
| Elsewhere.

(** [#clicked(event)], the [click] listener of the controls container *)
Definition clicked (target : ClickTarget) : Method unit :=
  match target with
  | Elsewhere => ret tt
  | OnButton b =>
    p <- this ;;
    if p_disabled p b then ret tt
    else
      let previousState := p_state p in
      match b with
      | Play => start false ;; lift (dispatchEvent "start" previousState)
      | PlayBackward => start true ;; lift (dispatchEvent "startreverse" previousState)
      | Pause => pause ;; lift (dispatchEvent "pause" previousState)
      | Stop => stop ;; lift (dispatchEvent "stop" previousState)
      end
  end.

(** ** Configuration *)

Definition DEFAULT_ANIMATION_DURATION : float := 10000.

(** [get animationDuration()]; [p_attr_duration] is
    [parseFloat(this.getAttribute("animation-duration"))]. *)
Definition animationDuration (p : PlaybackControls) : float :=
  if 0 <? p_attr_duration p then p_attr_duration p else DEFAULT_ANIMATION_DURATION.

Definition setAnimationListener (listener : option AnimationListener) : Method unit :=
  p <- this ;;
  match time (p_state p) with
  | Some _ => lift cancelTimer ;; lift (with_state (set_time None))
  | None => ret tt
  end ;;
  lift (with_animationCallback listener) ;;
  match listener with
  | None => ret tt
  | Some _ =>
    lift (fun p =>
            let (r, p1) := alloc {| millisElapsed := None; timer := None;
                                    durationMillis := animationDuration p |} p in
            with_state (set_time (Some r)) p1) ;;
    p <- this ;;
    if isPlaying (p_state p) then lift (startTimer false) else ret tt
  end.

(** [#setAnimationDuration(durationMillis)] *)
Definition setAnimationDuration (durationMillis_ : float) : Method unit :=
  if negb (0 <? durationMillis_) then ret tt
  else
    p <- this ;;
    match time (p_state p) with
    | Some r =>
      if isPlaying (p_state p) then
        let wasBackward := PlaybackState_eqb (state (p_state p)) PLAYING_BACKWARDS in
        pause ;;
        p1 <- this ;;
        match time (p_state p1) with
        | Some r1 => lift (assign r1 (set_durationMillis durationMillis_))
        | None => throw TypeError
        end ;;
        start wasBackward
      else ret tt
    | None => ret tt
    end.

(** [attributeChangedCallback("animation-duration", _, newValue)] with
    [millis = parseFloat(newValue)]; the attribute already has its new
    value.  The callback is an [async] function: what it throws rejects the
    promise it returns and does not reach the caller. *)
Definition attributeChangedCallback (millis : float) : Method unit :=
  lift (with_attr_duration millis) ;;
  try_ (if 0 <? millis then setAnimationDuration millis else ret tt).

(** ** The clock *)

(** [timeInfo.timer = globalThis.requestAnimationFrame(run)] *)
Definition reschedule (c : RunClosure) (p : PlaybackControls) : PlaybackControls :=
  let (handle, p1) := requestAnimationFrame c p in
  assign (timeInfo c) (set_timer (Some handle)) p1.

(** The callback [run] of [#startTimer], called with the frame's
    [timestamp]; [now] is what [globalThis.performance.now()] returns during
    the call. *)
Definition run (c : RunClosure) (timestamp now : float) : Method unit :=
  let start := match start_ c with None => timestamp | Some s => s end in
  let c := {| timeInfo := timeInfo c; initialFraction := initialFraction c;
              oneOff := oneOff c; start_ := Some start |} in
  let passed := timestamp - start in
  lift (assign (timeInfo c) (set_millisElapsed (Some passed))) ;;
  p <- this ;;
  let backwards := PlaybackState_eqb (state (p_state p)) PLAYING_BACKWARDS in
  let duration := durationMillis (deref (timeInfo c) p) in
  let fraction_ :=
    if backwards then Math_max 0 (initialFraction c - passed / duration)
    else Math_min 1 (passed / duration + initialFraction c) in
  if (fraction_ =? 1) && negb backwards then finish
  else if (fraction_ =? 0) && backwards then stop
  else
    match p_animationCallback p with
    | None => throw TypeError
    | Some l =>
      let candidate := set_fraction fraction_ (p_state p) in
      lift (log (CallMove candidate)) ;;
      match l_move l (calls p) candidate with
      | Throws => throw HookError
      | result =>
        if oneOff c then lift (assign (timeInfo c) (set_timer None))
        else
          match result with
          | Returns false | Nullish => pause
          | Deferred => lift (suspend (RunK c fraction_ now))
          | _ => moveInternal fraction_ true ;; lift (reschedule c)
          end
      end
    end.

(** ** Promise settlement *)

(** The value a listener's promise is fulfilled with. *)
Inductive Value : Type :=
| VBool (b : bool)
| VNumber (n : float).

Inductive Resolution : Type :=
| Fulfilled (v : Value)
| Rejected.

(** JavaScript truthiness, as in [if (doStart)]. *)
Definition truthy (v : Value) : bool :=
  match v with
  | VBool b => b
  | VNumber n => negb (n =? 0) && negb (is_nan n)
  end.

(** The [then] handler of each suspension; [now] is
    [globalThis.performance.now()] at that time. *)
Definition onFulfilled (k : Continuation) (v : Value) (now : float) : Method unit :=
  match k with
  | StartK previousState backwards =>
    if truthy v then lift (finishStart backwards) else lift (start_abort previousState)
  | MoveK previousState fraction_ =>
    if truthy v then move_finalize previousState fraction_ else move_abort previousState
  | StepK =>
    lift (with_state (set_isSuspended false)) ;;
    match v with
    | VNumber newFraction =>
      if (0 <=? newFraction) && (newFraction <=? 1) then moveInternal newFraction false
      else ret tt
    | VBool _ => ret tt
    end
  | RunK c fraction_ suspensionStart =>
    if truthy v then
      lift (with_state (set_isSuspended false)) ;;
      let elapsed := now - suspensionStart in
      let c := {| timeInfo := timeInfo c; initialFraction := initialFraction c;
                  oneOff := oneOff c;
                  start_ := Some (match start_ c with Some s => s | None => nan end + elapsed) |} in
      moveInternal fraction_ true ;;
      lift (reschedule c)
    else
      lift (with_state (set_isSuspended false)) ;;
      pause
  end.

(** The [catch] handler, for an error that is not a [_PlaybackAbortError]. *)
Definition onRejected (k : Continuation) : Method unit :=
  match k with
  | StartK previousState _ => lift (start_abort previousState)
  | MoveK previousState _ => move_abort previousState
  | StepK => lift (with_state (set_isSuspended false))
  | RunK _ _ _ => lift (with_state (set_isSuspended false)) ;; pause
  end.

(** The listener's promise behind controller [c] settles, fulfilled or
    rejected: the handler of the raced promise is due, unless [ctrl.abort()]
    came first. *)
Definition resolved (c : nat) (p : PlaybackControls) : PlaybackControls :=
  with_promises
    (map (fun s =>
            if Nat.eqb (ctrl s) c then
              match status s with
              | Pending => {| ctrl := ctrl s; kont := kont s; status := Resolved |}
              | _ => s
              end
            else s)
         (promises p)) p.

(** The handler that [ctrl.abort()] can still call off. *)
Definition awaited (c : nat) (p : PlaybackControls) : option Continuation :=
  match find (fun s => Nat.eqb (ctrl s) c) (promises p) with
  | Some s => match status s with Pending => Some (kont s) | _ => None end
  | None => None
  end.

(** The handler that has not run and may still run. *)
Definition pending (c : nat) (p : PlaybackControls) : option Continuation :=
  match find (fun s => Nat.eqb (ctrl s) c) (promises p) with
  | Some s => match status s with Pending | Resolved => Some (kont s) | _ => None end
  | None => None
  end.

Definition settled (c : nat) (p : PlaybackControls) : PlaybackControls :=
  with_promises
    (map (fun s => if Nat.eqb (ctrl s) c
                   then {| ctrl := ctrl s; kont := kont s; status := Settled |}
                   else s)
         (promises p)) p.

(** The handler of the raced promise of controller [c] runs, [r] being
    what the listener's promise settled with; on a promise that nothing has
    happened to, this is the settlement and the handler in a row.  Nothing
    runs if [ctrl.abort()] came before the settlement, or if the handler has
    run already.  An exception in the [then] handler goes to the [catch]
    handler of the chain. *)
Definition settle (c : nat) (r : Resolution) (now : float) : Method unit :=
  fun p =>
    match pending c p with
    | None => (Ok tt, p)
    | Some k =>
      match r with
      | Rejected => onRejected k (settled c p)
      | Fulfilled v =>
        match onFulfilled k v now (settled c p) with
        | (Thrown _, p1) => onRejected k p1
        | done => done
        end
      end
    end.

(** A pending animation frame callback fires. *)
Definition frame (handle : nat) (timestamp now : float) : Method unit :=
  fun p =>
    match find (fun x => Nat.eqb (fst x) handle) (frames p) with
    | None => (Ok tt, p)
    | Some (_, c) => run c timestamp now (cancelAnimationFrame handle p)
    end.

(** ** Instances and what can happen to them *)

(** The instance after [constructor()]. *)
Definition constructor : PlaybackControls :=
  {| p_state := {| state := STOPPED; fraction := 0; isSuspended := false; time := None |};
     p_suspensionControl := None;
     p_animationCallback := None;
     p_disabled := fun b => match b with Pause | Stop => true | _ => false end;
     p_progress := 0;
     p_attr_duration := nan;
     heap := []; frames := []; frameCount := 0;
     promises := []; dispatched := []; calls := [] |}.

Inductive Action : Type :=
| Start (backwards : bool)
| DoStop
| Finish
| DoPause
| Move (fraction : float)
| SetAnimationListener (listener : option AnimationListener)
| AttributeChanged (millis : float)
| KeyDown (key : Key)
| Click (target : ClickTarget)
| Frame (handle : nat) (timestamp now : float)
| Resolve (c : nat)
| Settle (c : nat) (r : Resolution) (now : float).

Definition method (a : Action) : Method unit :=
  match a with
  | Start backwards => start backwards
  | DoStop => stop
  | Finish => finish
  | DoPause => pause
  | Move fraction_ => move fraction_
  | SetAnimationListener listener => setAnimationListener listener
  | AttributeChanged millis => attributeChangedCallback millis
  | KeyDown key => step key
  | Click target => clicked target
  | Frame handle timestamp now => frame handle timestamp now
  | Resolve c => lift (resolved c)
  | Settle c r now => settle c r now
  end.

Definition perform (p : PlaybackControls) (a : Action) : PlaybackControls :=
  exec (method a) p.

Definition performs (actions : list Action) (p : PlaybackControls) : PlaybackControls :=
  fold_left perform actions p.

Inductive reachable : PlaybackControls -> Prop :=
| reachable_constructor : reachable constructor
| reachable_perform : forall p a, reachable p -> reachable (perform p a).

(** ** Listeners and instances of the examples *)

(** A listener that defers every [move]. *)
Definition deferring : AnimationListener :=
  {| l_start := None;
     l_move := fun _ _ => Deferred;
     l_stopped := None;
     l_step := None |}.

(** A [start] hook that always returns [false]. *)
Definition refuse : list HookCall -> float -> bool -> Answer bool :=
  fun _ _ _ => Returns false.

(** A listener that defers every [move] and refuses every [start]. *)
Definition refusing : AnimationListener :=
  {| l_start := Some refuse;
     l_move := fun _ _ => Deferred;
     l_stopped := None;
     l_step := None |}.

(** [move(0.5)] on a new instance with that listener: suspended. *)
Definition suspended_instance : PlaybackControls :=
  performs [SetAnimationListener (Some refusing); Move 0.5] constructor.

(** A listener that approves everything at once. *)
Definition approving : AnimationListener :=
  {| l_start := None;
     l_move := fun _ _ => Returns true;
     l_stopped := None;
     l_step := None |}.

(** Playing forward and suspended by a deferred [move(0.6)], the listener
    then replaced by the refusing one. *)
Definition playing_suspended : PlaybackControls :=
  performs [SetAnimationListener (Some deferring); Start false; Move 0.6;
            SetAnimationListener (Some refusing)] constructor.

(** [move(0.25)] on a new instance with that listener: paused. *)
Definition paused_instance : PlaybackControls :=
  performs [SetAnimationListener (Some approving); Move 0.25] constructor.

(** A listener whose [stopped] hook throws. *)
Definition throwing : AnimationListener :=
  {| l_start := None;
     l_move := fun _ _ => Returns true;
     l_stopped := Some (fun _ _ => true);
     l_step := None |}.

(** A [step] hook that always returns 1. *)
Definition jump_to_end : list HookCall -> float -> bool -> Answer StepResult :=
  fun _ _ _ => Returns (StepNumber 1).

(** A listener whose [step] hook jumps to the end. *)
Definition stepping : AnimationListener :=
  {| l_start := None;
     l_move := fun _ _ => Returns true;
     l_stopped := None;
     l_step := Some jump_to_end |}.

(** Playing forward from 0 with that listener. *)
Definition playing_instance : PlaybackControls :=
  performs [SetAnimationListener (Some stepping); Start false] constructor.

(** A listener whose [step] hook returns a promise. *)
Definition hesitating : AnimationListener :=
  {| l_start := None;
     l_move := fun _ _ => Returns true;
     l_stopped := None;
     l_step := Some (fun _ _ _ => Deferred) |}.

(** Playing forward from 0 with that listener. *)
Definition awaiting_step : PlaybackControls :=
  performs [SetAnimationListener (Some hesitating); Start false] constructor.

(** A listener that approves every [move] and records [stopped]. *)
Definition recording : AnimationListener :=
  {| l_start := None;
     l_move := fun _ _ => Returns true;
     l_stopped := Some (fun _ _ => false);
     l_step := None |}.

(** Forward playback over 10000 ms; the second frame comes 10000 ms after
    the first. *)
Definition played_to_end : PlaybackControls :=
  performs [SetAnimationListener (Some recording); Start false;
            Frame 0 0 0; Frame 1 10000 10000] constructor.

(** The state object at rest at the end, and the one-off callback
    [#moveInternal] schedules there. *)
Definition finished : PlaybackStateInfo :=
  {| state := FINISHED; fraction := 1; isSuspended := false; time := Some 0%nat |}.

Definition redraw : RunClosure :=
  {| timeInfo := 0; initialFraction := 1; oneOff := true; start_ := None |}.

(** The instance at rest in [FINISHED] with one-off callback [h] pending. *)
Definition redrawing (h : nat) (p : PlaybackControls) : Prop :=
  p_state p = finished /\
  p_animationCallback p = Some recording /\
  heap p = [ {| millisElapsed := Some 0; timer := Some h; durationMillis := 10000 |} ] /\
  frames p = [(h, redraw)] /\
  frameCount p = S h.

(** The next [n] animation frames, the pending callbacks being [h],
    [h + 1], ... *)
Fixpoint redraws (n : nat) (h : nat) : list Action :=
  match n with
  | O => []
  | S n' => Frame h 10016 10016 :: redraws n' (S h)
  end.




(** ** Reasoning about methods *)

(** [wp c Q p]: called on [p], the method [c] completes with a result and an
    instance that satisfy [Q], whether it returns or throws. *)
Definition wp {A} (c : Method A) (Q : Result A -> PlaybackControls -> Prop)
    (p : PlaybackControls) : Prop :=
  Q (fst (c p)) (snd (c p)).

Lemma wp_bind {A B} (c : Method A) (k : A -> Method B) Q p :
  wp c (fun r p' => match r with
                    | Ok a => wp (k a) Q p'
                    | Thrown e => Q (Thrown e) p'
                    end) p ->
  wp (bind c k) Q p.
Proof. unfold wp, bind. destruct (c p) as [[a|e] p']; simpl; tauto. Qed.

Lemma wp_mono {A} (c : Method A) (Q Q' : Result A -> PlaybackControls -> Prop) p :
  (forall r p', Q r p' -> Q' r p') -> wp c Q p -> wp c Q' p.
Proof. unfold wp. auto. Qed.

Lemma wp_lift f (Q : Result unit -> PlaybackControls -> Prop) p :
  Q (Ok tt) (f p) -> wp (lift f) Q p.
Proof. exact (fun H => H). Qed.

Lemma wp_ret {A} (a : A) (Q : Result A -> PlaybackControls -> Prop) p :
  Q (Ok a) p -> wp (ret a) Q p.
Proof. exact (fun H => H). Qed.

Lemma wp_throw {A} e (Q : Result A -> PlaybackControls -> Prop) p :
  Q (Thrown e) p -> wp (throw e) Q p.
Proof. exact (fun H => H). Qed.

Lemma wp_this (Q : Result PlaybackControls -> PlaybackControls -> Prop) p :
  Q (Ok p) p -> wp this Q p.
Proof. exact (fun H => H). Qed.

Lemma wp_try c (Q : Result unit -> PlaybackControls -> Prop) p :
  wp c (fun _ p' => Q (Ok tt) p') p -> wp (try_ c) Q p.
Proof. exact (fun H => H). Qed.

(** What a proved [wp] says about the call. *)
Lemma wp_exec {A} (c : Method A) (Q : Result A -> PlaybackControls -> Prop) p :
  wp c Q p -> Q (fst (c p)) (exec c p).
Proof. exact (fun H => H). Qed.

(** One step through a method body. *)
Ltac wp_step :=
  lazymatch goal with
  | |- wp (bind _ _) _ _ => apply wp_bind
  | |- wp (lift _) _ _ => apply wp_lift; cbv beta iota
  | |- wp (ret _) _ _ => apply wp_ret; cbv beta iota
  | |- wp (throw _) _ _ => apply wp_throw; cbv beta iota
  | |- wp this _ _ => apply wp_this; cbv beta iota
  | |- wp (try_ _) _ _ => apply wp_try
  end.

(** ** What the helpers leave alone *)

(** The part of the instance the boundary invariant talks about: the
    discrete state, the fraction, and what the promises will run. *)
Definition core (p : PlaybackControls) : PlaybackState * float * list Continuation :=
  (state (p_state p), fraction (p_state p), map kont (promises p)).

Lemma update_disabled_only (g : PlaybackControls -> Button -> PlaybackControls) l :
  (forall q e, core (g q e) = core q) ->
  forall q, core (fold_left g l q) = core q.
Proof.
  intros Hg. induction l as [|e l IH]; intros q; simpl; [reflexivity|].
  rewrite IH. apply Hg.
Qed.

Lemma core_updateActivation a i p : core (updateActivation a i p) = core p.
Proof.
  unfold updateActivation.
  rewrite update_disabled_only by reflexivity.
  apply update_disabled_only. reflexivity.
Qed.

Lemma core_cancelTimer p : core (cancelTimer p) = core p.
Proof.
  unfold cancelTimer.
  destruct (time (p_state p)); [destruct (timer _)|]; reflexivity.
Qed.

Lemma abort_konts c p : map kont (promises (abort c p)) = map kont (promises p).
Proof.
  unfold abort; simpl. rewrite map_map. apply map_ext.
  intros s. destruct (Nat.eqb _ _); [destruct (status s)|]; reflexivity.
Qed.

Lemma core_cancelSuspension p : core (cancelSuspension p) = core p.
Proof.
  unfold cancelSuspension, core.
  destruct (isSuspended (p_state p)); [|reflexivity].
  destruct (p_suspensionControl p) as [c|]; [rewrite <- (abort_konts c p)|]; reflexivity.
Qed.

Lemma core_startTimer o p : core (startTimer o p) = core p.
Proof.
  unfold startTimer.
  destruct (time (p_state p)); [|reflexivity].
  rewrite <- (core_cancelTimer p).
  destruct (negb _ && negb _); reflexivity.
Qed.

Lemma core_notifyStopped p : core (exec notifyStopped p) = core p.
Proof.
  unfold exec, notifyStopped.
  destruct (p_animationCallback p) as [l|]; [|reflexivity].
  destruct (l_stopped l) as [h|]; [|reflexivity].
  destruct (h _ _); reflexivity.
Qed.

Lemma core_with_progress v p : core (with_progress v p) = core p.
Proof. reflexivity. Qed.

Lemma core_log c p : core (log c p) = core p.
Proof. reflexivity. Qed.

Lemma core_dispatchEvent t s p : core (dispatchEvent t s p) = core p.
Proof. reflexivity. Qed.

Lemma core_assign r f p : core (assign r f p) = core p.
Proof. reflexivity. Qed.

Lemma core_reschedule c p : core (reschedule c p) = core p.
Proof. reflexivity. Qed.

(** Rewriting with these drops the helpers around a [core]. *)
Create Rewrite HintDb frame.
#[local] Hint Rewrite core_updateActivation core_cancelTimer core_cancelSuspension
  core_startTimer core_notifyStopped
  core_with_progress core_log core_dispatchEvent core_assign core_reschedule : frame.

(** ** The boundary invariant *)

Definition coherent (s : PlaybackState) (f : float) : Prop :=
  (s = STOPPED -> (f =? 0) = true) /\ (s = FINISHED -> (f =? 1) = true).

Definition kont_ok (k : Continuation) : Prop :=
  match k with
  | StartK previousState _ => coherent (state previousState) (fraction previousState)
  | _ => True
  end.

Definition Inv_core (c : PlaybackState * float * list Continuation) : Prop :=
  coherent (fst (fst c)) (snd (fst c)) /\ Forall kont_ok (snd c).

(** [STOPPED] comes with fraction 0 and [FINISHED] with fraction 1, now and
    in every snapshot a pending [start] may restore. *)
Definition Inv (p : PlaybackControls) : Prop := Inv_core (core p).

Definition snapshots_ok (p : PlaybackControls) : Prop :=
  Forall kont_ok (snd (core p)).

Lemma Inv_snapshots p : Inv p -> snapshots_ok p.
Proof. intros [_ H]. exact H. Qed.

Definition resolve (s : PlaybackState) (f : float) : PlaybackState :=
  if resting s
     || (f =? 0) && PlaybackState_eqb s PLAYING_BACKWARDS
     || (f =? 1) && PlaybackState_eqb s PLAYING
  then if f =? 0 then STOPPED else if f =? 1 then FINISHED else PAUSED
  else s.

Lemma resolve_coherent s f : coherent (resolve s f) f.
Proof.
  unfold resolve, coherent.
  destruct (f =? 0) eqn:E0, (f =? 1) eqn:E1, s; simpl; split; congruence.
Qed.

(** What [#moveInternal] does to the core: nothing when it throws, otherwise
    the clamped fraction and the state it resolves to. *)
Lemma wp_notifyStopped (Q : Result unit -> PlaybackControls -> Prop) p :
  (forall r p', core p' = core p -> Q r p') -> wp notifyStopped Q p.
Proof. intros H. apply H. apply core_notifyStopped. Qed.

Lemma moveInternal_core fraction_ skipTimer p :
  wp (moveInternal fraction_ skipTimer)
     (fun r p' =>
        match r, fst (clamp fraction_ p) with
        | Ok _, Ok f =>
          core p' = (resolve (state (p_state p)) f, f, map kont (promises p))
        | Thrown e, Thrown e' => e = e' /\ core p' = core p
        | _, _ => False
        end) p.
Proof.
  unfold moveInternal.
  wp_step. destruct skipTimer; wp_step.
  all: match goal with
       | |- wp ?c ?Q _ =>
         enough (H : forall q, core q = core p -> wp c Q q)
           by (apply H; autorewrite with frame; reflexivity)
       end.
  all: intros q Eq.
  all: assert (Es : state (p_state q) = state (p_state p)) by (unfold core in Eq; congruence).
  all: assert (Ek : map kont (promises q) = map kont (promises p)) by (unfold core in Eq; congruence).
  all: wp_step; unfold clamp.
  all: destruct (fraction_ <? 0);
         [|destruct (1 <? fraction_); [|destruct (negb (is_finite fraction_))]].
  all: simpl fst; wp_step; try (split; [reflexivity|assumption]).
  all: repeat wp_step; simpl; rewrite Es; unfold resolve.
  all: destruct (state (p_state p)); simpl.
  all: try destruct (fraction_ =? 0) eqn:E0; try destruct (fraction_ =? 1) eqn:E1; simpl.
  all: repeat wp_step.
  all: try (apply wp_notifyStopped; intros ? p' E'; cbv beta iota).
  all: repeat wp_step.
  all: repeat match goal with
         | |- wp (match ?x with _ => _ end) _ _ => destruct x
         end.
  all: repeat wp_step.
  all: autorewrite with frame; try rewrite E'; autorewrite with frame.
  all: unfold core; simpl; rewrite ?Ek, ?Es; try reflexivity.
Qed.

(** ** Every method keeps the boundary invariant *)

Definition coh (p : PlaybackControls) : Prop :=
  coherent (state (p_state p)) (fraction (p_state p)).

Lemma Inv_intro p : coh p -> snapshots_ok p -> Inv p.
Proof. intros H1 H2. split; assumption. Qed.

Lemma Inv_same_core p q : core q = core p -> Inv p -> Inv q.
Proof. unfold Inv. intros ->. auto. Qed.

Lemma snapshots_same_core p q : core q = core p -> snapshots_ok p -> snapshots_ok q.
Proof. unfold snapshots_ok. intros ->. auto. Qed.

(** A method keeps the invariant; a method restores it, whatever state and
    fraction it starts from. *)
Definition keeps {A} (c : Method A) : Prop :=
  forall p, Inv p -> wp c (fun _ p' => Inv p') p.

Definition restores {A} (c : Method A) : Prop :=
  forall p, snapshots_ok p -> wp c (fun _ p' => Inv p') p.

Lemma restores_keeps {A} (c : Method A) : restores c -> keeps c.
Proof. intros H p Hp. apply H, Inv_snapshots, Hp. Qed.

Lemma keeps_bind {A B} (c : Method A) (k : A -> Method B) :
  keeps c -> (forall a, keeps (k a)) -> keeps (bind c k).
Proof.
  intros Hc Hk p Hp. apply wp_bind. eapply wp_mono; [|apply Hc, Hp].
  intros [a|e] p' H; [apply Hk|]; exact H.
Qed.

Lemma keeps_lift f : (forall p, core (f p) = core p) -> keeps (lift f).
Proof. intros Hf p Hp. apply wp_lift. eapply Inv_same_core; [apply Hf|exact Hp]. Qed.

Lemma keeps_ret {A} (a : A) : keeps (ret a).
Proof. intros p Hp. exact Hp. Qed.

Lemma keeps_throw {A} e : keeps (throw (A:=A) e).
Proof. intros p Hp. exact Hp. Qed.

Lemma keeps_try c : keeps c -> keeps (try_ c).
Proof. intros Hc p Hp. apply wp_try. exact (Hc p Hp). Qed.

Lemma keeps_this (k : PlaybackControls -> Method unit) :
  (forall q, keeps (k q)) -> keeps (bind this k).
Proof. intros Hk p Hp. apply wp_bind, wp_this. apply Hk, Hp. Qed.

Lemma keeps_notifyStopped : keeps notifyStopped.
Proof.
  intros p Hp. apply wp_notifyStopped. intros _ p' E.
  eapply Inv_same_core; eassumption.
Qed.

Lemma moveInternal_restores fraction_ skipTimer p :
  snapshots_ok p ->
  wp (moveInternal fraction_ skipTimer)
     (fun r p' => match r with
                  | Ok _ => Inv p'
                  | Thrown _ => core p' = core p
                  end) p.
Proof.
  intros Hp. eapply wp_mono; [|apply moveInternal_core].
  intros [[]|e] p'; destruct (fst (clamp fraction_ p)); try contradiction.
  - intros E. unfold Inv, Inv_core. rewrite E. split; [apply resolve_coherent|exact Hp].
  - intros [_ E]. exact E.
Qed.

Lemma keeps_moveInternal fraction_ skipTimer : keeps (moveInternal fraction_ skipTimer).
Proof.
  intros p Hp. eapply wp_mono; [|apply moveInternal_restores, Inv_snapshots, Hp].
  intros [[]|e] p' H; [exact H|]. eapply Inv_same_core; eassumption.
Qed.

Lemma snapshots_cancelSuspension p : snapshots_ok p -> snapshots_ok (cancelSuspension p).
Proof. apply snapshots_same_core, core_cancelSuspension. Qed.

(** [moveInternal] of a number that needs no clamping and is finite
    cannot throw. *)
Lemma moveInternal_restores_at fraction_ skipTimer p :
  fst (clamp fraction_ p) = Ok fraction_ ->
  snapshots_ok p ->
  wp (moveInternal fraction_ skipTimer) (fun r p' => r = Ok tt /\ Inv p') p.
Proof.
  intros Hc Hp. eapply wp_mono; [|apply moveInternal_core].
  intros [[]|e] p'; rewrite Hc; try contradiction.
  intros E. split; [reflexivity|].
  unfold Inv, Inv_core. rewrite E. split; [apply resolve_coherent|exact Hp].
Qed.

Lemma restores_stop : restores stop.
Proof.
  intros p Hp. unfold stop. do 2 (wp_step; wp_step). wp_step.
  eapply wp_mono; [|apply (moveInternal_restores_at 0 false); [reflexivity|]].
  - intros r p' [-> H]. apply keeps_notifyStopped, H.
  - apply snapshots_cancelSuspension, Hp.
Qed.

Lemma restores_finish : restores finish.
Proof.
  intros p Hp. unfold finish. do 2 (wp_step; wp_step). wp_step.
  eapply wp_mono; [|apply (moveInternal_restores_at 1 false); [reflexivity|]].
  - intros r p' [-> H]. apply keeps_notifyStopped, H.
  - apply snapshots_cancelSuspension, Hp.
Qed.

Lemma restores_pause : restores pause.
Proof.
  intros p Hp. unfold pause. wp_step. wp_step. wp_step. wp_step.
  destruct (_ <=? 0); [|destruct (1 <=? _)].
  - apply restores_stop, snapshots_cancelSuspension, Hp.
  - apply restores_finish, snapshots_cancelSuspension, Hp.
  - do 3 (wp_step; wp_step). apply keeps_notifyStopped.
    unfold paused. eapply Inv_same_core.
    + autorewrite with frame. reflexivity.
    + apply Inv_intro; [split; discriminate|].
      apply snapshots_cancelSuspension, Hp.
Qed.

Lemma restores_move_abort previousState : restores (move_abort previousState).
Proof.
  intros p Hp. unfold move_abort. do 2 (wp_step; wp_step).
  apply restores_pause. exact Hp.
Qed.

Lemma keeps_move_finalize previousState fraction_ :
  keeps (move_finalize previousState fraction_).
Proof.
  unfold move_finalize. apply keeps_bind; [apply keeps_lift; reflexivity|intros _].
  apply keeps_bind; [apply keeps_moveInternal|intros _].
  apply keeps_this. intros q. apply keeps_lift. reflexivity.
Qed.

Lemma snapshots_suspend k p : kont_ok k -> snapshots_ok p -> snapshots_ok (suspend k p).
Proof.
  intros Hk Hp. unfold snapshots_ok, suspend, core; simpl.
  rewrite map_app. apply Forall_app. split; [exact Hp|]. repeat constructor. exact Hk.
Qed.

Lemma Inv_suspend k p : kont_ok k -> Inv p -> Inv (suspend k p).
Proof.
  intros Hk [H1 H2]. apply Inv_intro; [exact H1|]. apply snapshots_suspend; assumption.
Qed.

Lemma keeps_suspend k : kont_ok k -> keeps (lift (suspend k)).
Proof. intros Hk p Hp. apply wp_lift, Inv_suspend; assumption. Qed.

Lemma keeps_move fraction_ : keeps (move fraction_).
Proof.
  unfold move. apply keeps_bind; [apply keeps_lift, core_cancelSuspension|intros _].
  apply keeps_this. intros q.
  destruct (p_animationCallback q) as [l|].
  - apply keeps_bind; [apply keeps_lift; reflexivity|intros _].
    destruct (l_move l _ _) as [[]| | |].
    + apply keeps_move_finalize.
    + apply restores_keeps, restores_move_abort.
    + apply restores_keeps, restores_move_abort.
    + apply keeps_suspend. exact I.
    + apply keeps_throw.
  - apply restores_keeps, restores_move_abort.
Qed.

Lemma core_finishStart backwards p : core (finishStart backwards p) = core p.
Proof.
  unfold finishStart, started.
  destruct (time _); autorewrite with frame; reflexivity.
Qed.

Lemma playing_Inv p :
  isPlaying (p_state p) = true -> snapshots_ok p -> Inv p.
Proof.
  intros H Hs. apply Inv_intro; [|exact Hs].
  unfold isPlaying in H. split; intros E; rewrite E in H; discriminate.
Qed.

Lemma keeps_start backwards : keeps (start backwards).
Proof.
  intros p Hp. unfold start. wp_step. wp_step.
  destruct (p_animationCallback p) as [l|]; [|exact Hp].
  destruct (isPlaying (p_state p) && _); [exact Hp|].
  destruct Hp as [Hc Hs].
  assert (Hs' := snapshots_cancelSuspension p Hs).
  do 3 (wp_step; wp_step).
  match goal with
  | |- wp _ _ ?q => assert (Hq : Inv q); [|revert Hq; generalize q; intros q' Hq]
  end.
  { apply playing_Inv.
    - destruct backwards; simpl; destruct (_ =? _); reflexivity.
    - destruct backwards; simpl; destruct (_ =? _); exact Hs'. }
  destruct (l_start l) as [hook|].
  - wp_step. wp_step. wp_step. wp_step.
    destruct (hook _ _ _) as [[]| | |]; wp_step.
    + eapply Inv_same_core; [apply core_finishStart|]. exact Hq.
    + apply Inv_intro; [exact Hc|apply Hq].
    + apply Inv_intro; [exact Hc|apply Hq].
    + apply Inv_suspend; [exact Hc|exact Hq].
    + exact Hq.
  - wp_step. eapply Inv_same_core; [apply core_finishStart|]. exact Hq.
Qed.

Lemma keeps_step key : keeps (step key).
Proof.
  unfold step. destruct key; try apply keeps_ret.
  all: apply keeps_this; intros q.
  all: destruct (p_animationCallback q) as [l|]; [|apply keeps_ret].
  all: destruct (l_step l) as [hook|]; [|apply keeps_ret].
  all: apply keeps_bind; [apply keeps_lift, core_cancelSuspension|intros _].
  all: apply keeps_this; intros q1.
  all: apply keeps_bind; [apply keeps_lift; reflexivity|intros _].
  all: destruct (hook _ _ _) as [[|result]| | |].
  all: first [ apply keeps_ret | apply keeps_throw | apply keeps_moveInternal
             | apply keeps_suspend; exact I ].
Qed.

Lemma keeps_pause : keeps pause.
Proof. apply restores_keeps, restores_pause. Qed.

Lemma keeps_stop : keeps stop.
Proof. apply restores_keeps, restores_stop. Qed.

Lemma keeps_finish : keeps finish.
Proof. apply restores_keeps, restores_finish. Qed.

Lemma keeps_clicked target : keeps (clicked target).
Proof.
  unfold clicked. destruct target as [b|]; [|apply keeps_ret].
  apply keeps_this; intros q.
  destruct (p_disabled q b); [apply keeps_ret|].
  destruct b; (apply keeps_bind; [|intros _; apply keeps_lift; reflexivity]).
  - apply keeps_start.
  - apply keeps_start.
  - apply keeps_pause.
  - apply keeps_stop.
Qed.

Lemma keeps_setAnimationListener listener : keeps (setAnimationListener listener).
Proof.
  unfold setAnimationListener. apply keeps_this; intros q.
  apply keeps_bind.
  { destruct (time (p_state q)); [|apply keeps_ret].
    apply keeps_bind; [apply keeps_lift, core_cancelTimer|intros _].
    apply keeps_lift. reflexivity. }
  intros _. apply keeps_bind; [apply keeps_lift; reflexivity|intros _].
  destruct listener; [|apply keeps_ret].
  apply keeps_bind; [apply keeps_lift; reflexivity|intros _].
  apply keeps_this; intros q1.
  destruct (isPlaying (p_state q1)); [|apply keeps_ret].
  apply keeps_lift, core_startTimer.
Qed.

Lemma keeps_setAnimationDuration millis : keeps (setAnimationDuration millis).
Proof.
  unfold setAnimationDuration. destruct (negb _); [apply keeps_ret|].
  apply keeps_this; intros q.
  destruct (time (p_state q)); [|apply keeps_ret].
  destruct (isPlaying (p_state q)); [|apply keeps_ret].
  apply keeps_bind; [apply keeps_pause|intros _].
  apply keeps_this; intros q1.
  apply keeps_bind; [|intros _; apply keeps_start].
  destruct (time (p_state q1)); [apply keeps_lift; reflexivity|apply keeps_throw].
Qed.

Lemma keeps_attributeChangedCallback millis : keeps (attributeChangedCallback millis).
Proof.
  unfold attributeChangedCallback.
  apply keeps_bind; [apply keeps_lift; reflexivity|intros _].
  apply keeps_try. destruct (0 <? millis); [apply keeps_setAnimationDuration|apply keeps_ret].
Qed.

Lemma keeps_run c timestamp now : keeps (run c timestamp now).
Proof.
  unfold run. apply keeps_bind; [apply keeps_lift; reflexivity|intros _].
  apply keeps_this; intros q.
  destruct (_ && negb _); [apply keeps_finish|].
  destruct (_ && _); [apply keeps_stop|].
  destruct (p_animationCallback q) as [l|]; [|apply keeps_throw].
  apply keeps_bind; [apply keeps_lift; reflexivity|intros _].
  destruct (l_move l _ _) as [[]| | |]; try apply keeps_throw.
  all: destruct (oneOff c); [apply keeps_lift; reflexivity|].
  - apply keeps_bind; [apply keeps_moveInternal|intros _]. apply keeps_lift; reflexivity.
  - apply keeps_pause.
  - apply keeps_pause.
  - apply keeps_suspend. exact I.
Qed.

Lemma keeps_frame handle timestamp now : keeps (frame handle timestamp now).
Proof.
  intros p Hp. unfold wp, frame.
  destruct (find _ (frames p)) as [[h c]|]; [|exact Hp].
  apply (keeps_run c timestamp now (cancelAnimationFrame handle p)).
  exact Hp.
Qed.

Lemma keeps_start_abort previousState :
  coherent (state previousState) (fraction previousState) ->
  keeps (lift (start_abort previousState)).
Proof. intros H p [_ Hs]. apply wp_lift. apply Inv_intro; [exact H|exact Hs]. Qed.

Lemma keeps_onRejected k : kont_ok k -> keeps (onRejected k).
Proof.
  intros Hk. destruct k; simpl.
  - apply keeps_start_abort, Hk.
  - apply restores_keeps, restores_move_abort.
  - apply keeps_lift. reflexivity.
  - apply keeps_bind; [apply keeps_lift; reflexivity|intros _; apply keeps_pause].
Qed.

Lemma keeps_onFulfilled k v now : kont_ok k -> keeps (onFulfilled k v now).
Proof.
  intros Hk. destruct k; simpl.
  - destruct (truthy v); [apply keeps_lift, core_finishStart|apply keeps_start_abort, Hk].
  - destruct (truthy v); [apply keeps_move_finalize|apply restores_keeps, restores_move_abort].
  - apply keeps_bind; [apply keeps_lift; reflexivity|intros _].
    destruct v; [apply keeps_ret|].
    destruct (_ && _); [apply keeps_moveInternal|apply keeps_ret].
  - destruct (truthy v);
      (apply keeps_bind; [apply keeps_lift; reflexivity|intros _]).
    + apply keeps_bind; [apply keeps_moveInternal|intros _]. apply keeps_lift; reflexivity.
    + apply keeps_pause.
Qed.

Lemma pending_kont_ok c p k : snapshots_ok p -> pending c p = Some k -> kont_ok k.
Proof.
  unfold pending, snapshots_ok, core; simpl. intros Hs.
  destruct (find _ (promises p)) as [s|] eqn:E; [|discriminate].
  intros Hk. assert (Ek : kont s = k) by (destruct (status s); congruence).
  subst k. apply find_some in E. destruct E as [E _].
  rewrite Forall_forall in Hs. apply Hs. apply in_map. exact E.
Qed.

Lemma core_resolved c p : core (resolved c p) = core p.
Proof.
  unfold core, resolved; simpl. f_equal. rewrite map_map. apply map_ext.
  intros s. destruct (Nat.eqb _ _); [destruct (status s)|]; reflexivity.
Qed.

Lemma core_settled c p : core (settled c p) = core p.
Proof.
  unfold core, settled; simpl. f_equal. rewrite map_map. apply map_ext.
  intros s. destruct (Nat.eqb _ _); reflexivity.
Qed.

Lemma keeps_settle c r now : keeps (settle c r now).
Proof.
  intros p Hp. unfold wp, settle.
  destruct (pending c p) as [k|] eqn:E; [|exact Hp].
  assert (Hk : kont_ok k) by (eapply pending_kont_ok; [apply Inv_snapshots, Hp|exact E]).
  assert (Hq : Inv (settled c p)) by (eapply Inv_same_core; [apply core_settled|exact Hp]).
  destruct r as [v|].
  - generalize (keeps_onFulfilled k v now Hk _ Hq). unfold wp.
    destruct (onFulfilled k v now (settled c p)) as [[[]|e] p1]; simpl; intros H1.
    + exact H1.
    + apply (keeps_onRejected k Hk p1 H1).
  - apply (keeps_onRejected k Hk _ Hq).
Qed.

Lemma keeps_method a : keeps (method a).
Proof.
  destruct a; simpl.
  - apply keeps_start.
  - apply keeps_stop.
  - apply keeps_finish.
  - apply keeps_pause.
  - apply keeps_move.
  - apply keeps_setAnimationListener.
  - apply keeps_attributeChangedCallback.
  - apply keeps_step.
  - apply keeps_clicked.
  - apply keeps_frame.
  - apply keeps_lift, core_resolved.
  - apply keeps_settle.
Qed.

Lemma Inv_constructor : Inv constructor.
Proof. split; [split; [reflexivity|discriminate]|constructor]. Qed.

Lemma reachable_Inv p : reachable p -> Inv p.
Proof.
  induction 1 as [|p a _ IH]; [apply Inv_constructor|].
  apply (keeps_method a p IH).
Qed.

(** C1: in every state an instance can reach from its constructor through
    calls of [start], [stop], [finish], [pause], [move],
    [setAnimationListener], attribute changes, key presses, clicks, clock
    ticks and settlements of the listener's promises, [state === STOPPED]
    implies [fraction === 0] and [state === FINISHED] implies
    [fraction === 1]. *)
Theorem boundary_invariant p :
  reachable p ->
  (state (p_state p) = STOPPED -> (fraction (p_state p) =? 0) = true) /\
  (state (p_state p) = FINISHED -> (fraction (p_state p) =? 1) = true).
Proof. intros H. apply (reachable_Inv p H). Qed.

Lemma reachable_performs actions : forall p, reachable p -> reachable (performs actions p).
Proof.
  induction actions as [|a l IH]; intros p H; [exact H|].
  apply IH, reachable_perform, H.
Qed.

(** The invariant at the end of a clock-driven forward playback. *)
Lemma boundary_invariant_witness :
  reachable played_to_end /\
  state (p_state played_to_end) = FINISHED /\
  (fraction (p_state played_to_end) =? 1) = true.
Proof.
  assert (H : reachable played_to_end)
    by apply reachable_performs, reachable_constructor.
  split; [exact H|]. split; [reflexivity|].
  apply (boundary_invariant played_to_end H). reflexivity.
Defined.

(** ** Relations every step of a method respects *)

Section Follows.

Variable R : PlaybackControls -> PlaybackControls -> Prop.
Hypothesis R_refl : forall p, R p p.
Hypothesis R_trans : forall p q r, R p q -> R q r -> R p r.

(** The instance after the call is related to the one before it, whether
    the call returns or throws. *)
Definition follows {A} (c : Method A) : Prop :=
  forall p, R p (exec c p).

Lemma follows_ret {A} (a : A) : follows (ret a).
Proof. intros p. apply R_refl. Qed.

Lemma follows_throw {A} e : follows (throw (A:=A) e).
Proof. intros p. apply R_refl. Qed.

Lemma follows_this : follows this.
Proof. intros p. apply R_refl. Qed.

Lemma follows_lift f : (forall p, R p (f p)) -> follows (lift f).
Proof. intros H p. apply H. Qed.

Lemma follows_bind {A B} (c : Method A) (k : A -> Method B) :
  follows c -> (forall a, follows (k a)) -> follows (bind c k).
Proof.
  intros Hc Hk p. unfold exec, bind.
  specialize (Hc p). unfold exec in Hc.
  destruct (c p) as [[a|e] p']; simpl in *; [|exact Hc].
  eapply R_trans; [exact Hc|apply Hk].
Qed.

Lemma follows_try c : follows c -> follows (try_ c).
Proof. intros H p. apply H. Qed.

End Follows.

(** Go through a method body; [leaf] closes what is left. *)
Ltac follow refl trans leaf :=
  repeat
    (cbv zeta;
     lazymatch goal with
     | |- follows _ (ret _) => apply (follows_ret _ refl)
     | |- follows _ (throw _) => apply (follows_throw _ refl)
     | |- follows _ this => apply (follows_this _ refl)
     | |- follows _ (bind _ _) => apply (follows_bind _ trans); [|intro]
     | |- follows _ (try_ _) => apply follows_try
     | |- follows _ (lift _) => apply follows_lift; intro
     | |- follows _ (match ?x with _ => _ end) => destruct x
     | |- _ => leaf
     end).

(** [steady p q]: [q] has the suspension flag and bookkeeping, the
    listener, the promises and the dispatched events of [p]. *)
Definition steady (p q : PlaybackControls) : Prop :=
  isSuspended (p_state q) = isSuspended (p_state p) /\
  time (p_state q) = time (p_state p) /\
  p_suspensionControl q = p_suspensionControl p /\
  p_animationCallback q = p_animationCallback p /\
  p_attr_duration q = p_attr_duration p /\
  promises q = promises p /\
  dispatched q = dispatched p.

Lemma steady_refl p : steady p p.
Proof. repeat split. Qed.

Lemma steady_trans p q r : steady p q -> steady q r -> steady p r.
Proof. unfold steady. intuition congruence. Qed.

Lemma steady_fold (g : PlaybackControls -> Button -> PlaybackControls) l :
  (forall q e, steady q (g q e)) -> forall q, steady q (fold_left g l q).
Proof.
  intros Hg. induction l as [|e l IH]; intros q; simpl; [apply steady_refl|].
  eapply steady_trans; [apply Hg|apply IH].
Qed.

Lemma steady_updateActivation a i p : steady p (updateActivation a i p).
Proof.
  unfold updateActivation.
  eapply steady_trans; apply steady_fold; intros; repeat split.
Qed.

Lemma steady_cancelTimer p : steady p (cancelTimer p).
Proof.
  unfold cancelTimer.
  destruct (time (p_state p)); [destruct (timer _)|]; repeat split.
Qed.

Lemma steady_startTimer o p : steady p (startTimer o p).
Proof.
  unfold startTimer.
  destruct (time (p_state p)); [|apply steady_refl].
  destruct (negb _ && negb _); [apply steady_cancelTimer|].
  eapply steady_trans; [apply steady_cancelTimer|]. repeat split.
Qed.

Lemma steady_notifyStopped : follows steady notifyStopped.
Proof.
  intros p. unfold exec, notifyStopped.
  destruct (p_animationCallback p) as [l|]; [|apply steady_refl].
  destruct (l_stopped l) as [h|]; [|apply steady_refl].
  destruct (h _ _); repeat split.
Qed.

Ltac steady_leaf :=
  first [ apply steady_notifyStopped
        | apply steady_updateActivation
        | apply steady_cancelTimer
        | apply steady_startTimer
        | solve [repeat split] ].

Lemma steady_moveInternal fraction_ skipTimer :
  follows steady (moveInternal fraction_ skipTimer).
Proof.
  unfold moveInternal, clamp.
  follow steady_refl steady_trans steady_leaf.
Qed.

(** [#cancelSuspension] clears the flag and touches nothing else of the
    state object. *)
Lemma cancelSuspension_state p :
  p_state (cancelSuspension p) = set_isSuspended false (p_state p).
Proof.
  unfold cancelSuspension. destruct (isSuspended (p_state p)) eqn:E;
    [destruct (p_suspensionControl p); reflexivity|].
  destruct p as [[s f i t] ? ? ? ? ? ? ? ? ? ? ?]; simpl in *. subst i. reflexivity.
Qed.

(** [grows p q]: [q] has the listener of [p] and the hook calls of [p],
    possibly followed by more; its dispatched events start with those of [p]. *)
Definition grows (p q : PlaybackControls) : Prop :=
  p_animationCallback q = p_animationCallback p /\
  (exists more, calls q = calls p ++ more) /\
  (exists more, dispatched q = dispatched p ++ more).

Lemma grows_refl p : grows p p.
Proof. repeat split; exists []; symmetry; apply app_nil_r. Qed.

Lemma grows_trans p q r : grows p q -> grows q r -> grows p r.
Proof.
  intros (E1 & [m1 C1] & [d1 D1]) (E2 & [m2 C2] & [d2 D2]). repeat split.
  - congruence.
  - exists (m1 ++ m2). rewrite C2, C1. symmetry. apply app_assoc.
  - exists (d1 ++ d2). rewrite D2, D1. symmetry. apply app_assoc.
Qed.

Lemma grows_same p q :
  p_animationCallback q = p_animationCallback p ->
  calls q = calls p -> dispatched q = dispatched p -> grows p q.
Proof.
  intros E C D. repeat split; [exact E| |].
  - exists []. rewrite C. symmetry. apply app_nil_r.
  - exists []. rewrite D. symmetry. apply app_nil_r.
Qed.

Lemma grows_fold (g : PlaybackControls -> Button -> PlaybackControls) l :
  (forall q e, grows q (g q e)) -> forall q, grows q (fold_left g l q).
Proof.
  intros Hg. induction l as [|e l IH]; intros q; simpl; [apply grows_refl|].
  eapply grows_trans; [apply Hg|apply IH].
Qed.

Lemma grows_updateActivation a i p : grows p (updateActivation a i p).
Proof.
  unfold updateActivation.
  eapply grows_trans; apply grows_fold; intros; apply grows_same; reflexivity.
Qed.

Lemma grows_cancelTimer p : grows p (cancelTimer p).
Proof.
  unfold cancelTimer.
  destruct (time (p_state p)); [destruct (timer _)|]; apply grows_same; reflexivity.
Qed.

Lemma grows_startTimer o p : grows p (startTimer o p).
Proof.
  unfold startTimer.
  destruct (time (p_state p)); [|apply grows_refl].
  destruct (negb _ && negb _); [apply grows_cancelTimer|].
  eapply grows_trans; [apply grows_cancelTimer|]. apply grows_same; reflexivity.
Qed.

Lemma grows_cancelSuspension p : grows p (cancelSuspension p).
Proof.
  unfold cancelSuspension.
  destruct (isSuspended (p_state p)); [|apply grows_refl].
  destruct (p_suspensionControl p); apply grows_same; reflexivity.
Qed.

Lemma grows_log c p : grows p (log c p).
Proof. repeat split; [exists [c]; reflexivity|]. exists []. symmetry. apply app_nil_r. Qed.

Lemma grows_dispatchEvent t s p : grows p (dispatchEvent t s p).
Proof.
  repeat split; [exists []; symmetry; apply app_nil_r|].
  eexists. reflexivity.
Qed.

Lemma grows_notifyStopped : follows grows notifyStopped.
Proof.
  intros p. unfold exec, notifyStopped.
  destruct (p_animationCallback p) as [l|]; [|apply grows_refl].
  destruct (l_stopped l) as [h|]; [|apply grows_refl].
  destruct (h _ _); apply grows_log.
Qed.

Ltac grows_leaf :=
  first [ apply grows_notifyStopped
        | apply grows_updateActivation
        | apply grows_cancelTimer
        | apply grows_startTimer
        | apply grows_cancelSuspension
        | apply grows_log
        | apply grows_dispatchEvent
        | apply grows_same; reflexivity ].

Ltac grow := follow grows_refl grows_trans grows_leaf.

Lemma grows_moveInternal fraction_ skipTimer :
  follows grows (moveInternal fraction_ skipTimer).
Proof. unfold moveInternal, clamp. grow. Qed.

Lemma grows_stop : follows grows stop.
Proof. unfold stop. grow. apply grows_moveInternal. Qed.

Lemma grows_finish : follows grows finish.
Proof. unfold finish. grow. apply grows_moveInternal. Qed.

Lemma grows_pause : follows grows pause.
Proof.
  unfold pause, paused. grow; first [apply grows_stop | apply grows_finish].
Qed.

Lemma grows_move_abort previousState : follows grows (move_abort previousState).
Proof. unfold move_abort. grow. apply grows_pause. Qed.

Lemma grows_move_finalize previousState fraction_ :
  follows grows (move_finalize previousState fraction_).
Proof. unfold move_finalize. grow. apply grows_moveInternal. Qed.

(** ** [start] refused by the listener *)

(** C2, as amended: when the listener's [start] hook returns [false]
    synchronously, [start(false)] returns normally and leaves the state,
    the fraction and the time bookkeeping (the [time] reference, the
    [TimeBasedState] objects and the scheduled clock callbacks) exactly as
    they were, and so the buttons, the progress bar, the attribute, the
    listener and the events dispatched so far.  If the instance was not
    already [PLAYING], [isSuspended] is [false] afterwards, whatever it was
    before: the instance is then the one [#cancelSuspension()] leaves, with
    the flag cleared and the one hook call made, on the fraction the start
    would begin at.  If it was [PLAYING], the call returns before the hook is
    consulted and changes nothing, the flag included. *)
Theorem start_refused_reverts p l hook :
  p_animationCallback p = Some l ->
  l_start l = Some hook ->
  (forall h f, hook h f false = Returns false) ->
  let p' := exec (start false) p in
  let seen := if fraction (p_state p) =? 1 then 0 else fraction (p_state p) in
  fst (start false p) = Ok tt /\
  state (p_state p') = state (p_state p) /\
  fraction (p_state p') = fraction (p_state p) /\
  time (p_state p') = time (p_state p) /\
  heap p' = heap p /\
  frames p' = frames p /\
  frameCount p' = frameCount p /\
  p_disabled p' = p_disabled p /\
  p_progress p' = p_progress p /\
  p_attr_duration p' = p_attr_duration p /\
  p_animationCallback p' = p_animationCallback p /\
  dispatched p' = dispatched p /\
  (isSuspended (p_state p) = false -> isSuspended (p_state p') = false) /\
  (state (p_state p) <> PLAYING ->
   isSuspended (p_state p') = false /\
   p' = log (CallStart seen false)
          (with_state (set_isSuspended false) (cancelSuspension p))) /\
  (state (p_state p) = PLAYING -> p' = p).
Proof.
  intros Hl Hs Hh. unfold exec, start, bind, this, lift. simpl.
  rewrite Hl.
  destruct (state (p_state p)) eqn:Es; unfold isPlaying; rewrite Es; simpl.
  2: { repeat split; auto. all: congruence. }
  all: rewrite Hs; simpl.
  all: rewrite Hh; simpl.
  all: unfold cancelSuspension, log, start_abort.
  all: destruct p as [[st fr su ti] sc cb di pr du he fs fc ps ev cs]; simpl in *; subst st.
  all: destruct su; [destruct sc|]; simpl; destruct (fr =? 1); simpl.
  all: repeat split; auto; discriminate.
Qed.

(** C2 as stated fails: a reachable instance whose listener refuses every
    [start] is suspended by a deferred [move(0.5)]; [start(false)] then
    leaves the flag cleared, not as it was, and the pending suspension
    cancelled.  And on a reachable instance that is playing forward and
    suspended, [start(false)] returns early: the flag is still set
    afterwards. *)
Lemma start_refused_clears_flag :
  reachable playing_suspended /\
  p_animationCallback playing_suspended = Some refusing /\
  state (p_state playing_suspended) = PLAYING /\
  isSuspended (p_state (exec (start false) playing_suspended)) = true /\
  reachable suspended_instance /\
  p_animationCallback suspended_instance = Some refusing /\
  l_start refusing = Some refuse /\
  isSuspended (p_state suspended_instance) = true /\
  pending 0 suspended_instance
  = Some (MoveK (p_state (exec (setAnimationListener (Some refusing)) constructor)) 0.5) /\
  isSuspended (p_state (exec (start false) suspended_instance)) = false /\
  pending 0 (exec (start false) suspended_instance) = None.
Proof.
  split; [apply reachable_performs, reachable_constructor|].
  do 3 (split; [reflexivity|]).
  split; [apply reachable_performs, reachable_constructor|].
  vm_compute. repeat split.
Qed.

(** The amended C2 on [suspended_instance], the instance suspended at rest. *)
Lemma start_refused_reverts_witness :
  p_animationCallback suspended_instance = Some refusing /\
  l_start refusing = Some refuse /\
  (forall h f, refuse h f false = Returns false) /\
  fst (start false suspended_instance) = Ok tt /\
  state (p_state (exec (start false) suspended_instance)) = STOPPED /\
  isSuspended (p_state (exec (start false) suspended_instance)) = false /\
  heap (exec (start false) suspended_instance) = heap suspended_instance /\
  frames (exec (start false) suspended_instance) = [] /\
  calls (exec (start false) suspended_instance)
  = calls suspended_instance ++ [CallStart 0 false].
Proof.
  assert (H1 : p_animationCallback suspended_instance = Some refusing) by reflexivity.
  assert (H2 : l_start refusing = Some refuse) by reflexivity.
  assert (H3 : forall h f, refuse h f false = Returns false) by reflexivity.
  destruct (start_refused_reverts suspended_instance refusing _ H1 H2 H3)
    as (R1 & R2 & _ & _ & R5 & R6 & _ & _ & _ & _ & _ & _ & _ & R14 & _).
  assert (N : state (p_state suspended_instance) <> PLAYING) by discriminate.
  destruct (R14 N) as [R15 R16].
  split; [exact H1|]. split; [exact H2|]. split; [exact H3|]. split; [exact R1|].
  split; [rewrite R2; reflexivity|]. split; [exact R15|]. split; [exact R5|].
  split; [rewrite R6; reflexivity|]. rewrite R16. reflexivity.
Defined.

(** ** Non-finite fractions at the commit step *)

(** C3 fails on the code for the two infinities: [#moveInternal] tests
    [fraction < 0] and [fraction > 1] before [isFinite], so [+Infinity] is
    committed as 1 and [-Infinity] as 0, without an error.  Only [NaN]
    reaches the [isFinite] test and raises, leaving the state object as it
    was. *)
Theorem moveInternal_non_finite skipTimer p :
  (fst (moveInternal infinity skipTimer p) = Ok tt /\
   fraction (p_state (exec (moveInternal infinity skipTimer) p)) = 1) /\
  (fst (moveInternal neg_infinity skipTimer p) = Ok tt /\
   fraction (p_state (exec (moveInternal neg_infinity skipTimer) p)) = 0) /\
  (fst (moveInternal nan skipTimer p) = Thrown (InvalidFraction nan) /\
   p_state (exec (moveInternal nan skipTimer) p) = p_state p).
Proof.
  repeat split.
  - generalize (wp_exec _ _ _ (moveInternal_core infinity skipTimer p)).
    destruct (fst (moveInternal _ _ _)) as [[]|]; simpl; [reflexivity|contradiction].
  - generalize (wp_exec _ _ _ (moveInternal_core infinity skipTimer p)).
    destruct (fst (moveInternal _ _ _)) as [[]|]; simpl; [|contradiction].
    unfold core. congruence.
  - generalize (wp_exec _ _ _ (moveInternal_core neg_infinity skipTimer p)).
    destruct (fst (moveInternal _ _ _)) as [[]|]; simpl; [reflexivity|contradiction].
  - generalize (wp_exec _ _ _ (moveInternal_core neg_infinity skipTimer p)).
    destruct (fst (moveInternal _ _ _)) as [[]|]; simpl; [|contradiction].
    unfold core. congruence.
  - generalize (wp_exec _ _ _ (moveInternal_core nan skipTimer p)).
    destruct (fst (moveInternal _ _ _)) as [[]|]; simpl; [contradiction|].
    intros [-> _]. reflexivity.
  - unfold exec, moveInternal, bind, lift, ret; simpl.
    destruct skipTimer; simpl; [reflexivity|].
    unfold cancelTimer. destruct (time (p_state p)); [destruct (timer _)|]; reflexivity.
Qed.

(** [move(Infinity)] approved by the listener reaches the commit step and
    ends at fraction 1 in [FINISHED]. *)
Lemma move_infinity_clamped :
  let p := exec (setAnimationListener (Some approving)) constructor in
  fst (move infinity p) = Ok tt /\
  state (p_state (exec (move infinity) p)) = FINISHED /\
  fraction (p_state (exec (move infinity) p)) = 1.
Proof. vm_compute. repeat split. Qed.

(** ** A jump while paused *)

Lemma moveInternal_in_range fraction_ skipTimer p :
  fst (clamp fraction_ p) = Ok fraction_ ->
  wp (moveInternal fraction_ skipTimer)
     (fun r p' =>
        r = Ok tt /\
        state (p_state p') = resolve (state (p_state p)) fraction_ /\
        fraction (p_state p') = fraction_ /\
        steady p p' /\ grows p p') p.
Proof.
  intros Hc.
  pose proof (moveInternal_core fraction_ skipTimer p) as H.
  pose proof (steady_moveInternal fraction_ skipTimer p) as Hs.
  pose proof (grows_moveInternal fraction_ skipTimer p) as Hg.
  unfold wp, exec in *. rewrite Hc in H.
  destruct (fst (moveInternal fraction_ skipTimer p)) as [[]|e]; [|contradiction].
  unfold core in H. repeat split; try congruence; try apply Hs; apply Hg.
Qed.

(** C4: on an instance in state [PAUSED] whose listener's [move] hook
    returns [true] synchronously, [move(0.5)] returns normally, ends in
    state [PAUSED] with fraction 0.5, and dispatches exactly two events, one
    ["jumppaused"] and one ["change"], both carrying the snapshot taken
    before the hook was called and the snapshot after the commit. *)
Theorem move_while_paused p l :
  p_animationCallback p = Some l ->
  state (p_state p) = PAUSED ->
  (forall h s, l_move l h s = Returns true) ->
  let before := {| state := PAUSED; fraction := fraction (p_state p);
                   isSuspended := false; time := time (p_state p) |} in
  let after := {| state := PAUSED; fraction := 0.5;
                  isSuspended := false; time := time (p_state p) |} in
  let transition := {| from := before; to := after |} in
  fst (move 0.5 p) = Ok tt /\
  p_state (exec (move 0.5) p) = after /\
  dispatched (exec (move 0.5) p)
  = dispatched p ++ [ {| type := "jumppaused"; detail := transition |};
                      {| type := "change"; detail := transition |} ].
Proof.
  intros Hl Hs Hm before after transition.
  apply (wp_exec (move 0.5)
           (fun r p' => r = Ok tt /\ p_state p' = after /\
                        dispatched p' = dispatched p ++ _)).
  unfold move. repeat wp_step.
  assert (Eq : p_state (cancelSuspension p) = before).
  { rewrite cancelSuspension_state. unfold before. rewrite <- Hs.
    destruct (p_state p); reflexivity. }
  assert (El : p_animationCallback (cancelSuspension p) = Some l).
  { rewrite <- Hl. apply grows_cancelSuspension. }
  assert (Ed : dispatched (cancelSuspension p) = dispatched p).
  { unfold cancelSuspension. destruct (isSuspended _); [|reflexivity].
    destruct (p_suspensionControl p); reflexivity. }
  rewrite El, Eq. repeat wp_step. rewrite Hm.
  unfold move_finalize. repeat wp_step.
  eapply wp_mono; [|apply moveInternal_in_range; reflexivity].
  intros r p' (-> & Es & Ef & (S1 & S2 & _ & _ & _ & _ & S7) & _).
  simpl in Es, Ef, S1, S2, S7. rewrite Eq in Es, S2.
  assert (Es' : state (p_state p') = PAUSED) by exact Es.
  simpl in S2.
  assert (Ep : p_state p' = after).
  { unfold after. destruct (p_state p'); simpl in *. congruence. }
  repeat wp_step. unfold isPlaying. rewrite Ep. simpl.
  split; [reflexivity|split; [exact Ep|]]. rewrite S7, Ed, Ep. reflexivity.
Qed.

(** C4 on an instance paused at 0.25. *)
Lemma move_while_paused_witness :
  p_animationCallback paused_instance = Some approving /\
  state (p_state paused_instance) = PAUSED /\
  (forall h s, l_move approving h s = Returns true) /\
  fst (move 0.5 paused_instance) = Ok tt /\
  state (p_state (exec (move 0.5) paused_instance)) = PAUSED /\
  fraction (p_state (exec (move 0.5) paused_instance)) = 0.5 /\
  map type (dispatched (exec (move 0.5) paused_instance))
  = map type (dispatched paused_instance) ++ ["jumppaused"%string; "change"%string].
Proof.
  assert (H1 : p_animationCallback paused_instance = Some approving) by reflexivity.
  assert (H2 : state (p_state paused_instance) = PAUSED) by reflexivity.
  assert (H3 : forall h s, l_move approving h s = Returns true) by reflexivity.
  destruct (move_while_paused paused_instance approving H1 H2 H3) as (R1 & R2 & R3).
  split; [exact H1|]. split; [exact H2|]. split; [exact H3|]. split; [exact R1|].
  rewrite R2, R3, map_app. repeat split.
Defined.

(** ** A [stopped] hook that throws *)

Lemma notifyStopped_throws p l hook :
  p_animationCallback p = Some l ->
  l_stopped l = Some hook ->
  (forall h s, hook h s = true) ->
  fst (notifyStopped p) = Thrown HookError.
Proof.
  intros Hl Hs Hh. unfold notifyStopped. rewrite Hl, Hs, Hh. reflexivity.
Qed.

Lemma moveInternal_never_HookError fraction_ skipTimer p :
  fst (moveInternal fraction_ skipTimer p) <> Thrown HookError.
Proof.
  pose proof (moveInternal_core fraction_ skipTimer p) as H. unfold wp in H.
  destruct (fst (moveInternal fraction_ skipTimer p)) as [[]|e]; [discriminate|].
  destruct (fst (clamp fraction_ p)) as [f|e'] eqn:Ec; [contradiction|].
  destruct H as [-> _]. intros [= ->].
  unfold clamp in Ec.
  destruct (_ <? 0); [discriminate|]. destruct (1 <? _); [discriminate|].
  destruct (negb _); discriminate.
Qed.

(** C6 fails on the code: [stop], [finish] and [pause] call the [stopped]
    hook once more after the commit step, outside any [try], so a hook that
    throws makes each of them throw.  Only the call inside [#moveInternal] is
    guarded: the commit step itself never propagates the hook's exception. *)
Theorem stopped_hook_exception p l hook :
  p_animationCallback p = Some l ->
  l_stopped l = Some hook ->
  (forall h s, hook h s = true) ->
  fst (stop p) = Thrown HookError /\
  fst (finish p) = Thrown HookError /\
  fst (pause p) = Thrown HookError /\
  (forall fraction_ skipTimer,
     fst (moveInternal fraction_ skipTimer p) <> Thrown HookError).
Proof.
  intros Hl Hs Hh.
  assert (Hc : p_animationCallback (cancelSuspension p) = Some l)
    by (rewrite <- Hl; apply grows_cancelSuspension).
  assert (Hstop : forall q, p_animationCallback q = Some l ->
                            fst (stop q) = Thrown HookError).
  { intros q Hq.
    apply (wp_exec stop (fun r _ => r = Thrown HookError)).
    unfold stop. repeat wp_step.
    eapply wp_mono; [|apply (moveInternal_in_range 0 false); reflexivity].
    intros r p' (-> & _ & _ & _ & E & _).
    apply (notifyStopped_throws p' l hook); try assumption.
    rewrite E. rewrite <- Hq. apply (grows_cancelSuspension (with_state _ q)). }
  assert (Hfinish : forall q, p_animationCallback q = Some l ->
                              fst (finish q) = Thrown HookError).
  { intros q Hq.
    apply (wp_exec finish (fun r _ => r = Thrown HookError)).
    unfold finish. repeat wp_step.
    eapply wp_mono; [|apply (moveInternal_in_range 1 false); reflexivity].
    intros r p' (-> & _ & _ & _ & E & _).
    apply (notifyStopped_throws p' l hook); try assumption.
    rewrite E. rewrite <- Hq. apply (grows_cancelSuspension (with_state _ q)). }
  repeat split; auto.
  - apply (wp_exec pause (fun r _ => r = Thrown HookError)).
    unfold pause. repeat wp_step.
    destruct (_ <=? 0); [|destruct (1 <=? _)].
    + apply (Hstop _ Hc).
    + apply (Hfinish _ Hc).
    + repeat wp_step. apply (notifyStopped_throws _ l hook); try assumption.
      rewrite <- Hc. apply grows_trans with (q := paused (with_state (set_state PAUSED) (cancelSuspension p))).
      * unfold paused. eapply grows_trans; [|apply grows_updateActivation].
        apply grows_same; reflexivity.
      * apply grows_cancelTimer.
  - intros. apply moveInternal_never_HookError.
Qed.

(** A new instance with a listener whose [stopped] hook throws. *)
Lemma stopped_hook_exception_witness :
  let p := exec (setAnimationListener (Some throwing)) constructor in
  p_animationCallback p = Some throwing /\
  l_stopped throwing = Some (fun _ _ => true) /\
  fst (stop p) = Thrown HookError /\
  fst (finish p) = Thrown HookError /\
  fst (pause p) = Thrown HookError.
Proof.
  intros p. split; [reflexivity|]. split; [reflexivity|].
  destruct (stopped_hook_exception p throwing (fun _ _ => true))
    as (H1 & H2 & H3 & _); try reflexivity.
  split; [exact H1|]. split; [exact H2|exact H3].
Defined.

(** ** Numbers between 0 and 1 *)

Lemma SFcompare_finite_swap m e m' e' :
  SFcompare (S754_finite false m e) (S754_finite false m' e')
  = option_map CompOpp (SFcompare (S754_finite false m' e') (S754_finite false m e)).
Proof.
  simpl. rewrite (Z.compare_antisym e e').
  destruct (e ?= e')%Z; simpl; try reflexivity.
  f_equal. exact (Pos.compare_antisym m' m).
Qed.

Lemma SFcompare_finite_refl s m e :
  SFcompare (S754_finite s m e) (S754_finite s m e) = Some Eq.
Proof.
  simpl. rewrite Z.compare_refl.
  change (Pos.compare_cont Eq m m) with (Pos.compare m m).
  rewrite Pos.compare_refl. destruct s; reflexivity.
Qed.

(** A number the listener may return, [0 <= n && n <= 1], is committed as
    it is. *)
Lemma in_range_clamp fraction_ p :
  (0 <=? fraction_) = true -> (fraction_ <=? 1) = true ->
  clamp fraction_ p = (Ok fraction_, p).
Proof.
  unfold clamp, is_finite, is_nan, is_infinity.
  rewrite !leb_spec, !ltb_spec, !eqb_spec, abs_spec.
  let v := eval vm_compute in (Prim2SF 0) in change (Prim2SF 0) with v.
  let v := eval vm_compute in (Prim2SF infinity) in change (Prim2SF infinity) with v.
  assert (E1 : exists m e, Prim2SF 1 = S754_finite false m e)
    by (do 2 eexists; vm_compute; reflexivity).
  destruct E1 as (m1 & e1 & ->).
  destruct (Prim2SF fraction_) as [s|s| |s m e]; try discriminate.
  - destruct s; reflexivity.
  - destruct s; discriminate.
  - destruct s; [discriminate|]. intros _.
    unfold SFleb, SFltb, SFeqb.
    rewrite (SFcompare_finite_swap m1 e1 m e), SFcompare_finite_refl.
    destruct (SFcompare (S754_finite false m e) (S754_finite false m1 e1)) as [[]|];
      try discriminate; reflexivity.
Qed.

(** A number above 1 is not below 0. *)
Lemma above_one_not_negative fraction_ :
  (1 <? fraction_) = true -> (fraction_ <? 0) = false.
Proof.
  rewrite !ltb_spec.
  let v := eval vm_compute in (Prim2SF 0) in change (Prim2SF 0) with v.
  assert (E1 : exists m e, Prim2SF 1 = S754_finite false m e)
    by (do 2 eexists; vm_compute; reflexivity).
  destruct E1 as (m1 & e1 & ->).
  destruct (Prim2SF fraction_) as [s|s| |s m e]; try discriminate.
  - destruct s; [discriminate|reflexivity].
  - destruct s; [discriminate|reflexivity].
Qed.

(** [NaN] passes both comparisons of [#moveInternal] and fails [isFinite]. *)
Lemma nan_clamp fraction_ p :
  is_nan fraction_ = true ->
  clamp fraction_ p = (Thrown (InvalidFraction fraction_), p).
Proof.
  intros Hn. unfold clamp, is_finite. rewrite Hn. simpl.
  assert (E : Prim2SF fraction_ = S754_nan).
  { unfold is_nan in Hn. rewrite eqb_spec in Hn.
    destruct (Prim2SF fraction_) as [s|s| |s m e]; try reflexivity.
    - destruct s; discriminate.
    - destruct s; discriminate.
    - unfold SFeqb in Hn. rewrite SFcompare_finite_refl in Hn. discriminate. }
  rewrite !ltb_spec, E.
  destruct (Prim2SF 1); reflexivity.
Qed.

(** A number that is neither below 0, nor above 1, nor between them is
    [NaN]. *)
Lemma out_of_order_is_nan fraction_ :
  (fraction_ <? 0) = false -> (1 <? fraction_) = false ->
  (0 <=? fraction_) && (fraction_ <=? 1) = false ->
  is_nan fraction_ = true.
Proof.
  unfold is_nan. rewrite !leb_spec, !ltb_spec, eqb_spec.
  let v := eval vm_compute in (Prim2SF 0) in change (Prim2SF 0) with v.
  assert (E1 : exists m e, Prim2SF 1 = S754_finite false m e)
    by (do 2 eexists; vm_compute; reflexivity).
  destruct E1 as (m1 & e1 & ->).
  destruct (Prim2SF fraction_) as [s|s| |s m e]; try reflexivity.
  - destruct s; discriminate.
  - destruct s; discriminate.
  - destruct s; [discriminate|]. intros _.
    unfold SFleb, SFltb, SFeqb.
    rewrite (SFcompare_finite_swap m1 e1 m e).
    assert (E : exists c, SFcompare (S754_finite false m e) (S754_finite false m1 e1) = Some c)
      by (simpl; destruct (e ?= e1)%Z; eauto).
    destruct E as [c ->]. destruct c; simpl; discriminate.
Qed.

(** ** What the [move] hook is shown *)

(** C10: with a listener registered, the first hook call [move(f)] makes
    is the [move] hook, on a copy of the state object (flag cleared by the
    cancellation) whose fraction is [f] exactly as supplied, also when [f]
    lies outside [0,1].  Clamping comes after the hook has answered: when it
    returns [true], [move(f)] returns normally and the committed fraction is
    0 for [f < 0], 1 for [f > 1] and [f] itself for [0 <= f <= 1]; for any
    other [f], which is [NaN], it throws and state and fraction are as
    before the call. *)
Theorem move_hook_sees_candidate fraction_ p l :
  p_animationCallback p = Some l ->
  let candidate := {| state := state (p_state p); fraction := fraction_;
                      isSuspended := false; time := time (p_state p) |} in
  let p' := exec (move fraction_) p in
  (exists more, calls p' = calls p ++ CallMove candidate :: more) /\
  (l_move l (calls p) candidate = Returns true ->
   ((fraction_ <? 0) = true ->
    fst (move fraction_ p) = Ok tt /\ fraction (p_state p') = 0) /\
   ((1 <? fraction_) = true ->
    fst (move fraction_ p) = Ok tt /\ fraction (p_state p') = 1) /\
   ((0 <=? fraction_) = true -> (fraction_ <=? 1) = true ->
    fst (move fraction_ p) = Ok tt /\ fraction (p_state p') = fraction_) /\
   ((fraction_ <? 0) = false -> (1 <? fraction_) = false ->
    (0 <=? fraction_) && (fraction_ <=? 1) = false ->
    is_nan fraction_ = true /\
    fst (move fraction_ p) = Thrown (InvalidFraction fraction_) /\
    state (p_state p') = state (p_state p) /\
    fraction (p_state p') = fraction (p_state p))).
Proof.
  intros Hl candidate p'.
  assert (El : p_animationCallback (cancelSuspension p) = Some l).
  { rewrite <- Hl. apply grows_cancelSuspension. }
  assert (Ec : calls (cancelSuspension p) = calls p).
  { unfold cancelSuspension. destruct (isSuspended _); [|reflexivity].
    destruct (p_suspensionControl p); reflexivity. }
  assert (Es : set_fraction fraction_ (p_state (cancelSuspension p)) = candidate).
  { rewrite cancelSuspension_state. reflexivity. }
  split.
  - apply (wp_exec (move fraction_)
             (fun _ p' => exists more, calls p' = calls p ++ CallMove candidate :: more)).
    unfold move. repeat wp_step. rewrite El. repeat wp_step. rewrite Es.
    assert (K : forall (c : Method unit), follows grows c ->
              wp c (fun _ p' => exists more, calls p' = calls p ++ CallMove candidate :: more)
                 (log (CallMove candidate) (cancelSuspension p))).
    { intros c Hc. destruct (Hc (log (CallMove candidate) (cancelSuspension p)))
        as (_ & [more Hm] & _).
      exists more. unfold wp. unfold exec in Hm. rewrite Hm. simpl. rewrite Ec.
      rewrite <- app_assoc. reflexivity. }
    apply K. destruct (l_move l _ _) as [[]| | |].
    + apply grows_move_finalize.
    + apply grows_move_abort.
    + apply grows_move_abort.
    + apply follows_lift. intros q. apply grows_same; reflexivity.
    + apply follows_throw, grows_refl.
  - intros Hm.
    assert (G : match fst (clamp fraction_ p) with
                | Ok clamped =>
                  fst (move fraction_ p) = Ok tt /\ fraction (p_state p') = clamped
                | Thrown e =>
                  fst (move fraction_ p) = Thrown e /\
                  state (p_state p') = state (p_state p) /\
                  fraction (p_state p') = fraction (p_state p)
                end).
    { apply (wp_exec (move fraction_)
               (fun r p' => match fst (clamp fraction_ p) with
                            | Ok clamped => r = Ok tt /\ fraction (p_state p') = clamped
                            | Thrown e =>
                              r = Thrown e /\
                              state (p_state p') = state (p_state p) /\
                              fraction (p_state p') = fraction (p_state p)
                            end)).
      unfold move. repeat wp_step. rewrite El. repeat wp_step. rewrite Es, Ec, Hm.
      unfold move_finalize. repeat wp_step.
      eapply wp_mono; [|apply moveInternal_core].
      assert (Eclamp : forall q, fst (clamp fraction_ q) = fst (clamp fraction_ p)).
      { intros q. unfold clamp. destruct (_ <? 0); [reflexivity|].
        destruct (1 <? _); [reflexivity|]. destruct (negb _); reflexivity. }
      intros r q. rewrite Eclamp.
      destruct r as [[]|e], (fst (clamp fraction_ p)) as [f|e']; try contradiction.
      + intros H. repeat wp_step. simpl. unfold core in H.
        split; [reflexivity|congruence].
      + intros [-> H]. unfold core in H; simpl in H.
        rewrite cancelSuspension_state in H. simpl in H.
        split; [reflexivity|]. split; congruence. }
    split; [|split; [|split]].
    + intros H. unfold clamp in G. rewrite H in G. exact G.
    + intros H. unfold clamp in G.
      rewrite (above_one_not_negative _ H), H in G. exact G.
    + intros H0 H1. rewrite (in_range_clamp _ p H0 H1) in G. exact G.
    + intros H0 H1 H2.
      assert (H : is_nan fraction_ = true) by (apply out_of_order_is_nan; assumption).
      rewrite (nan_clamp _ p H) in G. split; [exact H|exact G].
Qed.

(** C10 for [move(2)] on a new instance with an approving listener: the
    hook is shown 2, and 1 is committed. *)
Lemma move_hook_sees_candidate_witness :
  let p := exec (setAnimationListener (Some approving)) constructor in
  p_animationCallback p = Some approving /\
  l_move approving (calls p)
    {| state := STOPPED; fraction := 2; isSuspended := false; time := Some 0%nat |}
  = Returns true /\
  (1 <? 2) = true /\
  (exists more,
     calls (exec (move 2) p)
     = calls p ++ CallMove {| state := STOPPED; fraction := 2; isSuspended := false;
                               time := Some 0%nat |} :: more) /\
  fst (move 2 p) = Ok tt /\
  fraction (p_state (exec (move 2) p)) = 1.
Proof.
  intros p.
  assert (H1 : p_animationCallback p = Some approving) by reflexivity.
  assert (H2 : (1 <? 2) = true) by reflexivity.
  destruct (move_hook_sees_candidate 2 p approving H1) as (R1 & R2).
  destruct (R2 eq_refl) as (_ & R3 & _).
  split; [exact H1|]. split; [reflexivity|]. split; [exact H2|]. split; [exact R1|].
  exact (R3 H2).
Defined.

(** ** Events are dispatched by the click handler *)

(** C8, as amended: on a new instance with a listener that has no [start]
    hook and whose [move] hook always returns [true], [start(false)] leads
    to state [PLAYING] with the fraction still 0 and dispatches no event;
    the ["start"] event, followed by ["change"], each with
    [from.state === STOPPED] and [to.state === PLAYING], is dispatched when
    the start comes from a click on the play button. *)
Theorem start_event_on_click l :
  l_start l = None ->
  (forall h s, l_move l h s = Returns true) ->
  let p := exec (setAnimationListener (Some l)) constructor in
  let before := {| state := STOPPED; fraction := 0; isSuspended := false; time := Some 0%nat |} in
  let after := {| state := PLAYING; fraction := 0; isSuspended := false; time := Some 0%nat |} in
  let transition := {| from := before; to := after |} in
  (p_state (exec (start false) p) = after /\
   dispatched (exec (start false) p) = []) /\
  (p_state (exec (clicked (OnButton Play)) p) = after /\
   dispatched (exec (clicked (OnButton Play)) p)
   = [ {| type := "start"; detail := transition |};
       {| type := "change"; detail := transition |} ]).
Proof.
  intros Hs _. destruct l as [s m st sp]. simpl in Hs. subst s.
  repeat split.
Qed.

(** C8 as stated fails: after [start(false)] on such an instance the state
    is [PLAYING] at fraction 0, and no event has been dispatched. *)
Lemma start_call_dispatches_nothing :
  let p := exec (setAnimationListener (Some approving)) constructor in
  l_start approving = None /\
  (forall h s, l_move approving h s = Returns true) /\
  state (p_state (exec (start false) p)) = PLAYING /\
  (fraction (p_state (exec (start false) p)) =? 0) = true /\
  dispatched (exec (start false) p) = [].
Proof. repeat split. Qed.

(** The amended C8 with the approving listener. *)
Lemma start_event_on_click_witness :
  l_start approving = None /\
  (forall h s, l_move approving h s = Returns true) /\
  map type (dispatched (exec (clicked (OnButton Play))
                          (exec (setAnimationListener (Some approving)) constructor)))
  = ["start"%string; "change"%string].
Proof.
  split; [reflexivity|]. split; [reflexivity|].
  destruct (start_event_on_click approving eq_refl (fun _ _ => eq_refl)) as (_ & _ & ->).
  reflexivity.
Defined.

(** ** The clock at the end of forward playback *)

Lemma redrawing_again h p :
  redrawing h p ->
  redrawing (S h) (perform p (Frame h 10016 10016)) /\
  calls (perform p (Frame h 10016 10016))
  = calls p ++ [CallStopped finished; CallStopped finished].
Proof.
  intros (Hs & Hl & Hh & Hf & Hc).
  destruct p as [s sc l d pr ad hp fr fc ps ev cs]. simpl in *. subst.
  unfold perform, exec, method, frame.
  cbn [frames find fst]. rewrite PeanoNat.Nat.eqb_refl.
  unfold cancelAnimationFrame. cbn [frames filter fst negb]. rewrite PeanoNat.Nat.eqb_refl.
  cbn [negb frameCount].
  vm_compute. repeat split.
  exact (eq_sym (app_assoc cs [CallStopped finished] [CallStopped finished])).
Qed.

Lemma redrawing_forever n : forall h p,
  redrawing h p ->
  redrawing (n + h) (performs (redraws n h) p) /\
  List.length (calls (performs (redraws n h) p)) = (List.length (calls p) + 2 * n)%nat.
Proof.
  induction n as [|n IH]; intros h p Hp; [split; [exact Hp|simpl; lia]|].
  destruct (redrawing_again h p Hp) as [H1 H2].
  destruct (IH (S h) _ H1) as [H3 H4].
  simpl performs. replace (S n + h)%nat with (n + S h)%nat by lia.
  split; [exact H3|]. rewrite H4, H2, length_app. simpl. lia.
Qed.

Lemma redrawing_played_to_end : redrawing 2 played_to_end.
Proof. vm_compute. repeat split. Qed.

(** C5 fails on the code.  Forward playback over 10000 ms reaches the
    candidate fraction 1 on the frame 10000 ms after the first one and calls
    [finish()]; but [finish] commits through [#moveInternal], which starts a
    one-off timer, so a further callback is pending afterwards.  That
    callback computes the candidate 1 again and calls [finish()] again, which
    schedules the next one: after any number [n] of further frames the
    instance is still [FINISHED] with a callback pending, and the [stopped]
    hook has been called twice per frame on top of the first two calls. *)
Theorem finish_reschedules_itself :
  p_state (performs [SetAnimationListener (Some recording); Start false; Frame 0 0 0]
             constructor)
  = {| state := PLAYING; fraction := 0; isSuspended := false; time := Some 0%nat |} /\
  p_state played_to_end = finished /\
  frames played_to_end = [(2%nat, redraw)] /\
  calls played_to_end
  = [CallMove {| state := PLAYING; fraction := 0; isSuspended := false; time := Some 0%nat |};
     CallStopped finished; CallStopped finished] /\
  forall n,
    p_state (performs (redraws n 2) played_to_end) = finished /\
    frames (performs (redraws n 2) played_to_end) = [((n + 2)%nat, redraw)] /\
    List.length (calls (performs (redraws n 2) played_to_end)) = (3 + 2 * n)%nat.
Proof.
  split; [reflexivity|]. split; [reflexivity|]. split; [reflexivity|].
  split; [reflexivity|]. intros n.
  destruct (redrawing_forever n 2 played_to_end redrawing_played_to_end)
    as [(H1 & _ & _ & H2 & _) H3].
  split; [exact H1|]. split; [exact H2|exact H3].
Qed.

(** ** Suspensions only grow older *)

Definition is_pending (s : Suspension) : bool :=
  match status s with Pending | Resolved => true | _ => false end.


(** [s'] is [s] later on: a promise that is no longer pending stays so. *)
Definition older (s s' : Suspension) : Prop :=
  ctrl s' = ctrl s /\ kont s' = kont s /\ (is_pending s = false -> is_pending s' = false).

Definition aged (l l' : list Suspension) : Prop :=
  exists l1 more, l' = l1 ++ more /\ Forall2 older l l1.

(** Controller ids are positions in the list of promises made so far. *)
Definition bounded (p : PlaybackControls) : Prop :=
  Forall (fun s => ctrl s < List.length (promises p))%nat (promises p).

Definition ages (p q : PlaybackControls) : Prop :=
  aged (promises p) (promises q) /\ (bounded p -> bounded q).

Lemma older_refl s : older s s.
Proof. repeat split; auto. Qed.

Lemma Forall2_older_refl l : Forall2 older l l.
Proof. induction l; constructor; auto using older_refl. Qed.

Lemma aged_refl l : aged l l.
Proof. exists l, []. split; [symmetry; apply app_nil_r|apply Forall2_older_refl]. Qed.

Lemma Forall2_older_trans l1 : forall l2 l3,
  Forall2 older l1 l2 -> Forall2 older l2 l3 -> Forall2 older l1 l3.
Proof.
  induction l1 as [|a l1 IH]; intros l2 l3 H12 H23; inversion H12; subst;
    inversion H23; subst; constructor.
  - unfold older in *. intuition congruence.
  - eapply IH; eassumption.
Qed.

Lemma aged_trans l1 l2 l3 : aged l1 l2 -> aged l2 l3 -> aged l1 l3.
Proof.
  intros (a & m & -> & Ha) (b & m' & -> & Hb).
  apply Forall2_app_inv_l in Hb. destruct Hb as (b1 & b2 & Hb1 & Hb2 & ->).
  exists b1, (b2 ++ m'). split; [symmetry; apply app_assoc|].
  eapply Forall2_older_trans; eassumption.
Qed.

Lemma ages_refl p : ages p p.
Proof. split; [apply aged_refl|auto]. Qed.

Lemma ages_trans p q r : ages p q -> ages q r -> ages p r.
Proof.
  intros [A1 B1] [A2 B2]. split; [eapply aged_trans; eassumption|auto].
Qed.

Lemma ages_same p q : promises q = promises p -> ages p q.
Proof.
  intros E. unfold ages, bounded. rewrite E. split; [apply aged_refl|auto].
Qed.

Lemma ages_map f p :
  (forall s, older s (f s)) ->
  ages p (with_promises (map f (promises p)) p).
Proof.
  intros Hf. split.
  - exists (map f (promises p)), []. split; [symmetry; apply app_nil_r|].
    simpl. induction (promises p); constructor; auto.
  - unfold bounded; simpl. rewrite length_map, Forall_map.
    apply Forall_impl. intros s. destruct (Hf s) as [-> _]. auto.
Qed.

Lemma ages_abort c p : ages p (abort c p).
Proof.
  apply ages_map. intros s. unfold older, is_pending.
  destruct (Nat.eqb _ _); [destruct (status s) eqn:E|]; simpl; rewrite ?E;
    repeat split; auto.
Qed.

Lemma ages_resolved c p : ages p (resolved c p).
Proof.
  apply ages_map. intros s. unfold older, is_pending.
  destruct (Nat.eqb _ _); [destruct (status s) eqn:E|]; simpl; rewrite ?E;
    repeat split; auto.
Qed.

Lemma ages_settled c p : ages p (settled c p).
Proof.
  apply ages_map. intros s. unfold older, is_pending.
  destruct (Nat.eqb _ _); simpl; repeat split; auto.
Qed.

Lemma ages_suspend k p : ages p (suspend k p).
Proof.
  split.
  - eexists (promises p), _. split; [reflexivity|apply Forall2_older_refl].
  - unfold bounded, suspend; simpl. intros H.
    rewrite length_app, Forall_app. simpl. split.
    + revert H. apply Forall_impl. intros; lia.
    + repeat constructor. simpl. lia.
Qed.

Lemma ages_cancelSuspension p : ages p (cancelSuspension p).
Proof.
  unfold cancelSuspension. destruct (isSuspended _); [|apply ages_refl].
  destruct (p_suspensionControl p) as [c|]; [|apply ages_same; reflexivity].
  eapply ages_trans; [apply ages_abort|apply ages_same; reflexivity].
Qed.

Lemma ages_steady p q : steady p q -> ages p q.
Proof. intros (_ & _ & _ & _ & _ & E & _). apply ages_same, E. Qed.

Lemma ages_notifyStopped : follows ages notifyStopped.
Proof. intros p. apply ages_steady, steady_notifyStopped. Qed.

Lemma ages_moveInternal fraction_ skipTimer : follows ages (moveInternal fraction_ skipTimer).
Proof. intros p. apply ages_steady, steady_moveInternal. Qed.

Ltac ages_leaf :=
  first [ apply ages_notifyStopped
        | apply ages_moveInternal
        | apply ages_cancelSuspension
        | apply ages_suspend
        | apply ages_steady;
          first [ apply steady_updateActivation | apply steady_cancelTimer
                | apply steady_startTimer ]
        | apply ages_same; reflexivity
        | match goal with |- ages _ (match ?b with _ => _ end) => destruct b end ].

Ltac age := follow ages_refl ages_trans ages_leaf.

Lemma ages_stop : follows ages stop.
Proof. unfold stop. age. Qed.

Lemma ages_finish : follows ages finish.
Proof. unfold finish. age. Qed.

Lemma ages_pause : follows ages pause.
Proof. unfold pause, paused. age; first [apply ages_stop|apply ages_finish]. Qed.

Lemma ages_move_abort previousState : follows ages (move_abort previousState).
Proof. unfold move_abort. age. apply ages_pause. Qed.

Lemma ages_move_finalize previousState fraction_ :
  follows ages (move_finalize previousState fraction_).
Proof. unfold move_finalize. age. Qed.

Lemma ages_move fraction_ : follows ages (move fraction_).
Proof.
  unfold move. age; first [apply ages_move_abort|apply ages_move_finalize].
Qed.

Lemma ages_finishStart backwards p : ages p (finishStart backwards p).
Proof.
  unfold finishStart, started.
  eapply ages_trans; [apply (ages_same p (with_state (set_isSuspended false) p)); reflexivity|].
  eapply ages_trans; [apply ages_steady, steady_updateActivation|].
  destruct (time _); [apply ages_steady, steady_startTimer|apply ages_refl].
Qed.

Ltac ages_leaf2 :=
  first [ apply ages_finishStart | apply ages_stop | apply ages_finish | apply ages_pause
        | apply ages_move_abort | apply ages_move_finalize | ages_leaf ].

Ltac age2 := follow ages_refl ages_trans ages_leaf2.

Lemma ages_start backwards : follows ages (start backwards).
Proof. unfold start, start_abort. age2. Qed.

Lemma ages_step key : follows ages (step key).
Proof. unfold step. age2. Qed.

Lemma ages_clicked target : follows ages (clicked target).
Proof. unfold clicked. age2; apply ages_start. Qed.

Lemma ages_setAnimationListener listener : follows ages (setAnimationListener listener).
Proof. unfold setAnimationListener. age2. Qed.

Lemma ages_setAnimationDuration millis : follows ages (setAnimationDuration millis).
Proof. unfold setAnimationDuration. age2; apply ages_start. Qed.

Lemma ages_attributeChangedCallback millis :
  follows ages (attributeChangedCallback millis).
Proof. unfold attributeChangedCallback. age2; apply ages_setAnimationDuration. Qed.

Lemma ages_run c timestamp now : follows ages (run c timestamp now).
Proof. unfold run. age2. Qed.

Lemma ages_frame handle timestamp now : follows ages (frame handle timestamp now).
Proof.
  intros p. unfold exec, frame.
  destruct (find _ (frames p)) as [[h c]|]; [|apply ages_refl].
  eapply ages_trans; [|apply ages_run]. apply ages_same. reflexivity.
Qed.

Lemma ages_onRejected k : follows ages (onRejected k).
Proof. destruct k; simpl; unfold start_abort; age2. Qed.

Lemma ages_onFulfilled k v now : follows ages (onFulfilled k v now).
Proof. destruct k; simpl; unfold start_abort; age2. Qed.

Lemma ages_settle c r now : follows ages (settle c r now).
Proof.
  intros p. unfold exec, settle.
  destruct (pending c p) as [k|]; [|apply ages_refl].
  destruct r as [v|].
  - pose proof (ages_onFulfilled k v now (settled c p)) as H1. unfold exec in H1.
    destruct (onFulfilled k v now (settled c p)) as [[[]|e] p1]; simpl in *.
    + eapply ages_trans; [apply ages_settled|exact H1].
    + eapply ages_trans; [apply ages_settled|].
      eapply ages_trans; [exact H1|apply ages_onRejected].
  - eapply ages_trans; [apply ages_settled|apply ages_onRejected].
Qed.

Lemma ages_method a : follows ages (method a).
Proof.
  destruct a; simpl.
  - apply ages_start.
  - apply ages_stop.
  - apply ages_finish.
  - apply ages_pause.
  - apply ages_move.
  - apply ages_setAnimationListener.
  - apply ages_attributeChangedCallback.
  - apply ages_step.
  - apply ages_clicked.
  - apply ages_frame.
  - intros p. apply ages_resolved.
  - apply ages_settle.
Qed.

Lemma reachable_bounded p : reachable p -> bounded p.
Proof.
  induction 1 as [|p a _ IH]; [constructor|].
  apply (ages_method a p), IH.
Qed.

(** ** Cancelled suspensions *)



Lemma awaited_pending c p k : awaited c p = Some k -> pending c p = Some k.
Proof.
  unfold awaited, pending. destruct (find _ (promises p)) as [s|]; [|discriminate].
  destruct (status s); (discriminate || auto).
Qed.



Lemma awaited_suspend k p :
  bounded p ->
  awaited (List.length (promises p)) (suspend k p) = Some k.
Proof.
  unfold bounded, awaited, suspend; simpl.
  generalize (List.length (promises p)). intros n H.
  induction H as [|s l Hs _ IH]; simpl.
  - rewrite PeanoNat.Nat.eqb_refl. reflexivity.
  - destruct (Nat.eqb (ctrl s) n) eqn:E; [|exact IH].
    apply PeanoNat.Nat.eqb_eq in E. lia.
Qed.

Lemma pending_suspend k p :
  bounded p ->
  pending (List.length (promises p)) (suspend k p) = Some k.
Proof. intros H. apply awaited_pending, awaited_suspend, H. Qed.








Lemma length_cancelSuspension p :
  List.length (promises (cancelSuspension p)) = List.length (promises p).
Proof.
  unfold cancelSuspension. destruct (isSuspended _); [|reflexivity].
  destruct (p_suspensionControl p); [|reflexivity].
  simpl. apply length_map.
Qed.

Lemma bounded_cancelSuspension p : bounded p -> bounded (cancelSuspension p).
Proof. apply ages_cancelSuspension. Qed.


(** ** One suspension at a time *)



























































(** ** The suspension protocol *)

(** The settlement of the listener's promise and the handler in a row are
    [settle] on the promise as it was. *)
Lemma settle_resolved c k r now p :
  pending c p = Some k ->
  settle c r now (resolved c p) = settle c r now p.
Proof.
  intros Hp.
  assert (E1 : pending c (resolved c p) = pending c p).
  { unfold pending, resolved; simpl.
    induction (promises p) as [|s l IH]; simpl; [reflexivity|].
    destruct (Nat.eqb (ctrl s) c) eqn:E.
    - destruct (status s) eqn:Es; simpl; rewrite E; simpl; rewrite ?Es; reflexivity.
    - rewrite E. exact IH. }
  assert (E2 : settled c (resolved c p) = settled c p).
  { unfold settled, resolved, with_promises; simpl. f_equal.
    rewrite map_map. apply map_ext.
    intros s. destruct (Nat.eqb (ctrl s) c) eqn:E; [|rewrite ?E; reflexivity].
    destruct (status s); simpl; rewrite ?E; reflexivity. }
  unfold settle. rewrite E1, E2, Hp. reflexivity.
Qed.









(** ** A single step *)

Lemma resolve_keeps_playing s n :
  (isPlaying {| state := resolve s n; fraction := n; isSuspended := false; time := None |} = true ->
   resolve s n = s) /\
  (resting s = true -> resting (resolve s n) = true).
Proof.
  unfold resolve, isPlaying; simpl.
  destruct s, (n =? 0), (n =? 1); simpl; split; congruence.
Qed.

(** [q] is [p] after the number [n] has been committed by a step: the
    position is [n], the discrete state is the one the commit step resolves,
    an instance playing afterwards is in the state it was in, and an
    instance at rest stays at rest. *)
Definition committed (n : float) (p q : PlaybackControls) : Prop :=
  fraction (p_state q) = n /\
  state (p_state q) = resolve (state (p_state p)) n /\
  (isPlaying (p_state q) = true -> state (p_state q) = state (p_state p)) /\
  (isPlaying (p_state p) = false -> isPlaying (p_state q) = false).

Lemma committed_resolve n p q :
  fraction (p_state q) = n ->
  state (p_state q) = resolve (state (p_state p)) n ->
  committed n p q.
Proof.
  intros Ef Es. split; [exact Ef|]. split; [exact Es|].
  unfold isPlaying. rewrite Es.
  destruct (resolve_keeps_playing (state (p_state p)) n) as [K1 K2].
  unfold isPlaying in K1; simpl in K1. split; [exact K1|].
  intros Hp. assert (Hr : resting (state (p_state p)) = true)
    by (destruct (state (p_state p)); simpl in *; congruence).
  specialize (K2 Hr). destruct (resolve _ _); simpl in *; congruence.
Qed.

Lemma pending_settled c p : pending c (settled c p) = None.
Proof.
  unfold pending, settled; simpl.
  induction (promises p) as [|s l IH]; simpl; [reflexivity|].
  destruct (Nat.eqb (ctrl s) c) eqn:E; simpl; rewrite E; [reflexivity|exact IH].
Qed.

(** The [then] handler of a step, on a number the listener may return. *)
Lemma step_fulfilled c n now q :
  (0 <=? n) = true -> (n <=? 1) = true ->
  pending c q = Some StepK ->
  fst (settle c (Fulfilled (VNumber n)) now q) = Ok tt /\
  committed n q (exec (settle c (Fulfilled (VNumber n)) now) q) /\
  isSuspended (p_state (exec (settle c (Fulfilled (VNumber n)) now) q)) = false /\
  pending c (exec (settle c (Fulfilled (VNumber n)) now) q) = None.
Proof.
  intros H0 H1 Hp.
  assert (Hc : forall x, fst (clamp n x) = Ok n)
    by (intros x; rewrite in_range_clamp by assumption; reflexivity).
  assert (W : wp (onFulfilled StepK (VNumber n) now)
                 (fun r q' => r = Ok tt /\
                              fraction (p_state q') = n /\
                              state (p_state q') = resolve (state (p_state q)) n /\
                              isSuspended (p_state q') = false /\
                              promises q' = promises (settled c q))
                 (settled c q)).
  { simpl. rewrite H0, H1. simpl. repeat wp_step.
    eapply wp_mono; [|apply moveInternal_in_range, Hc].
    intros r q' (-> & Es & Ef & (Ei & _ & _ & _ & _ & Ep & _) & _).
    repeat split; assumption. }
  unfold exec, settle. rewrite Hp. unfold wp, exec in W.
  destruct (onFulfilled StepK (VNumber n) now (settled c q)) as [r q'].
  simpl in W. destruct W as (-> & Ef & Es & Ei & Ep). simpl.
  split; [reflexivity|]. split; [apply committed_resolve; assumption|].
  split; [exact Ei|].
  unfold pending. rewrite Ep. apply pending_settled.
Qed.

(** C9, as amended.  The listener has a [step] hook and [0 <= n <= 1].
    - When the hook returns [n] at once, the key press returns normally
      with [n] committed unchanged by [#moveInternal].
    - When the hook returns a promise, the key press leaves position and
      discrete state as they are, sets the flag and records the suspension;
      when that promise is then fulfilled with [n], the handler commits [n]
      unchanged, clears the flag, and has run.
    - The same holds of the fulfilment with [n] of a step's suspension on
      any instance where its handler may still run.
    In each case the discrete state afterwards is the one the commit step
    resolves: a playing state stays as it is unless [n] is the end of its
    direction (1 forward gives [FINISHED], 0 backward gives [STOPPED]), and
    a resting state becomes [STOPPED] at 0, [FINISHED] at 1 and [PAUSED] in
    between.  So a step never starts playback and never reverses it: an
    instance playing afterwards is in the state it was in, and an instance
    at rest stays at rest. *)
Theorem step_commits key p l hook n :
  key <> OtherKey ->
  p_animationCallback p = Some l ->
  l_step l = Some hook ->
  (0 <=? n) = true -> (n <=? 1) = true ->
  let answer := hook (calls p) (fraction (p_state p)) (isLeft key) in
  let p' := exec (step key) p in
  let c := List.length (promises p) in
  (answer = Returns (StepNumber n) ->
   fst (step key p) = Ok tt /\ committed n p p') /\
  (answer = Deferred -> reachable p ->
   fst (step key p) = Ok tt /\
   p_state p' = set_isSuspended true (p_state p) /\
   p_suspensionControl p' = Some c /\
   awaited c p' = Some StepK /\
   forall now,
     fst (settle c (Fulfilled (VNumber n)) now p') = Ok tt /\
     committed n p (exec (settle c (Fulfilled (VNumber n)) now) p') /\
     isSuspended (p_state (exec (settle c (Fulfilled (VNumber n)) now) p')) = false /\
     pending c (exec (settle c (Fulfilled (VNumber n)) now) p') = None) /\
  (forall q c' now,
     pending c' q = Some StepK ->
     fst (settle c' (Fulfilled (VNumber n)) now q) = Ok tt /\
     committed n q (exec (settle c' (Fulfilled (VNumber n)) now) q) /\
     isSuspended (p_state (exec (settle c' (Fulfilled (VNumber n)) now) q)) = false /\
     pending c' (exec (settle c' (Fulfilled (VNumber n)) now) q) = None).
Proof.
  intros Hk Hl Hs H0 H1 answer p' c.
  assert (Hc : forall q, fst (clamp n q) = Ok n)
    by (intros q; rewrite in_range_clamp by assumption; reflexivity).
  assert (Ec : calls (cancelSuspension p) = calls p).
  { unfold cancelSuspension. destruct (isSuspended _); [|reflexivity].
    destruct (p_suspensionControl p); reflexivity. }
  assert (E : step key p
              = (p1 <- this ;;
                 lift (log (CallStep (fraction (p_state p1)) (isLeft key))) ;;
                 match hook (calls p1) (fraction (p_state p1)) (isLeft key) with
                 | Throws => throw HookError
                 | Returns StepFalse | Nullish => ret tt
                 | Deferred => lift (suspend StepK)
                 | Returns (StepNumber result) => moveInternal result false
                 end) (cancelSuspension p)).
  { destruct key; [| |contradiction];
      unfold step, bind at 1, this at 1; rewrite Hl, Hs; reflexivity. }
  split; [|split].
  - intros Ha. unfold p', exec. rewrite E.
    apply (wp_exec _ (fun r q => r = Ok tt /\ committed n p q)).
    repeat wp_step. rewrite cancelSuspension_state, Ec. simpl fraction.
    unfold answer in Ha. rewrite Ha.
    eapply wp_mono; [|apply moveInternal_in_range, Hc].
    intros r q (-> & Es & Ef & _). simpl in Es. rewrite cancelSuspension_state in Es.
    split; [reflexivity|apply committed_resolve; assumption].
  - intros Ha Hr.
    assert (Ep : step key p
                 = (Ok tt, suspend StepK
                             (log (CallStep (fraction (p_state p)) (isLeft key))
                                (cancelSuspension p)))).
    { rewrite E. unfold bind, this, lift. cbv beta iota zeta.
      rewrite cancelSuspension_state, Ec.
      change (fraction (set_isSuspended false (p_state p))) with (fraction (p_state p)).
      unfold answer in Ha. rewrite Ha. reflexivity. }
    assert (Hb : bounded (log (CallStep (fraction (p_state p)) (isLeft key))
                            (cancelSuspension p)))
      by (apply bounded_cancelSuspension, reachable_bounded, Hr).
    assert (Hw : awaited c p' = Some StepK).
    { unfold p', exec. rewrite Ep. simpl snd. unfold c.
      rewrite <- length_cancelSuspension. apply (awaited_suspend StepK _ Hb). }
    split; [rewrite Ep; reflexivity|]. split.
    { unfold p', exec. rewrite Ep. simpl. rewrite cancelSuspension_state. reflexivity. }
    split.
    { unfold p', exec. rewrite Ep. simpl. rewrite length_cancelSuspension. reflexivity. }
    split; [exact Hw|]. intros now.
    destruct (step_fulfilled c n now p' H0 H1 (awaited_pending _ _ _ Hw))
      as (R1 & (R2 & R3 & _) & R4 & R5).
    assert (Es : state (p_state p') = state (p_state p)).
    { unfold p', exec. rewrite Ep. simpl. rewrite cancelSuspension_state. reflexivity. }
    rewrite Es in R3.
    split; [exact R1|]. split; [apply committed_resolve; assumption|].
    split; [exact R4|exact R5].
  - intros q c' now. apply step_fulfilled; assumption.
Qed.

(** C9 as stated fails: a reachable instance playing forward, a [step] hook
    that returns 1, and the step ends the playback in [FINISHED]; from
    [STOPPED] the same step leads to [FINISHED] as well. *)
Lemma step_ends_playing :
  reachable playing_instance /\
  state (p_state playing_instance) = PLAYING /\
  (0 <=? 1) = true /\ (1 <=? 1) = true /\
  fst (step ArrowRight playing_instance) = Ok tt /\
  state (p_state (exec (step ArrowRight) playing_instance)) = FINISHED /\
  state (p_state (exec (step ArrowRight) (exec (setAnimationListener (Some stepping)) constructor)))
  = FINISHED.
Proof.
  split; [|vm_compute; repeat split; reflexivity].
  apply reachable_performs, reachable_constructor.
Qed.

(** The amended C9 on that instance, and on [awaiting_step], where the hook
    returns a promise that is then fulfilled with 0.5. *)
Lemma step_commits_witness :
  p_animationCallback playing_instance = Some stepping /\
  l_step stepping = Some jump_to_end /\
  (0 <=? 1) = true /\ (1 <=? 1) = true /\
  fraction (p_state (exec (step ArrowRight) playing_instance)) = 1 /\
  state (p_state (exec (step ArrowRight) playing_instance)) = resolve PLAYING 1 /\
  reachable awaiting_step /\
  p_animationCallback awaiting_step = Some hesitating /\
  l_step hesitating = Some (fun _ _ _ => Deferred) /\
  (0 <=? 0.5) = true /\ (0.5 <=? 1) = true /\
  awaited 0 (exec (step ArrowRight) awaiting_step) = Some StepK /\
  fraction (p_state (exec (settle 0 (Fulfilled (VNumber 0.5)) 0)
                       (exec (step ArrowRight) awaiting_step))) = 0.5 /\
  state (p_state (exec (settle 0 (Fulfilled (VNumber 0.5)) 0)
                    (exec (step ArrowRight) awaiting_step))) = PLAYING.
Proof.
  assert (H : ArrowRight <> OtherKey) by discriminate.
  assert (H1 : p_animationCallback playing_instance = Some stepping) by reflexivity.
  assert (H2 : l_step stepping = Some jump_to_end) by reflexivity.
  assert (H3 : jump_to_end (calls playing_instance) (fraction (p_state playing_instance))
                 (isLeft ArrowRight) = Returns (StepNumber 1)) by reflexivity.
  assert (H4 : (0 <=? 1) = true) by reflexivity.
  assert (H5 : (1 <=? 1) = true) by reflexivity.
  assert (G0 : reachable awaiting_step) by apply reachable_performs, reachable_constructor.
  assert (G1 : p_animationCallback awaiting_step = Some hesitating) by reflexivity.
  assert (G2 : l_step hesitating = Some (fun _ _ _ => Deferred)) by reflexivity.
  assert (G4 : (0 <=? 0.5) = true) by reflexivity.
  assert (G5 : (0.5 <=? 1) = true) by reflexivity.
  destruct (step_commits ArrowRight playing_instance stepping jump_to_end 1
              H H1 H2 H4 H5) as (R & _).
  destruct (R H3) as (_ & R2 & R3 & _).
  destruct (step_commits ArrowRight awaiting_step hesitating _ 0.5
              H G1 G2 G4 G5) as (_ & D & _).
  destruct (D eq_refl G0) as (_ & _ & _ & D4 & D5).
  destruct (D5 0) as (_ & (D6 & D7 & _) & _).
  split; [exact H1|]. split; [exact H2|]. split; [exact H4|]. split; [exact H5|].
  split; [exact R2|]. split; [exact R3|]. split; [exact G0|]. split; [exact G1|].
  split; [exact G2|]. split; [exact G4|]. split; [exact G5|]. split; [exact D4|].
  split; [exact D6|]. exact (eq_trans D7 eq_refl).
Defined.
